(** * vec4ir: boolean matching, incremental indexing and evaluation

    A shallow embedding of [vec4ir/base.py]: the [TermMatch] candidate
    filter, the [RetrievalBase] / [TfidfRetrieval] index store with its
    [fit] / [partial_fit] bookkeeping, the two-stage [query], and the
    judgment join of [RetriEvalMixin.evaluate].

    Conventions.
    - A Python attribute that may be unset is an [option] field; reading it
      while unset raises [AttributeError].
    - A method that mutates [self] is a function [store -> store * result _]:
      the returned store is the object as the call leaves it, also when the
      call raises (Python does not roll back).
    - scikit-learn's vectorizers, the nearest-neighbour search and the
      [rank_metrics] module are external collaborators; they are Section
      variables. *)

From stdpp Require Import base list sorting gmap strings.

Open Scope string_scope.
Open Scope list_scope.
Open Scope nat_scope.

(** ** Exceptions and the error monad *)

Inductive exn : Type :=
| ValueError (msg : string)
| AttributeError (attr : string)
| IndexError
| KeyError
| NotFittedError.

Inductive result (A : Type) : Type :=
| Ok (a : A)
| Raise (e : exn).
Arguments Ok {A} a.
Arguments Raise {A} e.

#[global] Instance result_ret : MRet result := λ A a, Ok a.
#[global] Instance result_bind : MBind result := λ A B f m,
  match m with Ok a => f a | Raise e => Raise e end.

(** [[f(x) for x in l]] where [f] may raise: the first exception wins. *)
Fixpoint comprehension {A B} (f : A → result B) (l : list A) : result (list B) :=
  match l with
  | [] => Ok []
  | x :: l' => y ← f x; ys ← comprehension f l'; Ok (y :: ys)
  end.

(** ** Two-dimensional arrays

    An array carries its column count, so that a [(0, m)] or [(n, 0)] array
    keeps its shape across [transpose]. *)

Record ndarray (A : Type) : Type := NDArray { n_cols : nat; rows : list (list A) }.
Arguments NDArray {A} n_cols rows.
Arguments n_cols {A} _.
Arguments rows {A} _.

Definition n_rows {A} (a : ndarray A) : nat := length (rows a).
Definition shape {A} (a : ndarray A) : nat * nat := (n_rows a, n_cols a).

(** Every row has the declared width. *)
Definition well_shaped {A} (a : ndarray A) : Prop :=
  Forall (λ r, length r = n_cols a) (rows a).

(** numpy's truth value of an entry, as used by [nonzero]. *)
Class Nonzero (A : Type) := is_nonzero : A → bool.
#[global] Instance bool_nonzero : Nonzero bool := λ b, b.
#[global] Instance Z_nonzero : Nonzero Z := λ z, negb (Z.eqb z 0).

Section Arrays.
Context {A : Type}.

(** [a.transpose()] *)
Definition transpose `{Inhabited A} (a : ndarray A) : ndarray A :=
  NDArray (n_rows a) ((λ j, (λ r, r !!! j) <$> rows a) <$> seq 0 (n_cols a)).

(** Column indices of the non-zero entries of one row, left to right. *)
Fixpoint nonzero_from `{Nonzero A} (j : nat) (r : list A) : list nat :=
  match r with
  | [] => []
  | x :: r' => (if is_nonzero x then [j] else []) ++ nonzero_from (S j) r'
  end.

(** [a.nonzero()]: the pair (row indices, column indices) of the non-zero
    entries, in row-major order. *)
Definition nonzero `{Nonzero A} (a : ndarray A) : list nat * list nat :=
  let coords := mjoin (imap (λ i r, (λ j, (i, j)) <$> nonzero_from 0 r) (rows a)) in
  (coords.*1, coords.*2).

(** [a[idx, :]]: fancy row indexing; an index past the last row raises. *)
Definition np_take_rows (a : ndarray A) (idx : list nat) : result (ndarray A) :=
  rs ← comprehension
         (λ i, match rows a !! i with Some r => Ok r | None => Raise IndexError end) idx;
  Ok (NDArray (n_cols a) rs).

(** [sp.vstack([a, b])]: row-stacking; the column counts must agree. A
    matrix has fewer than [2^63] rows, the range of its index type: a
    stack that would not fit is refused. *)
Definition vstack (a b : ndarray A) : result (ndarray A) :=
  if decide (n_cols a = n_cols b)
  then
    if decide (Z.of_nat (n_rows a + n_rows b) < 2 ^ 63)%Z
    then Ok (NDArray (n_cols a) (rows a ++ rows b))
    else Raise (ValueError "Maximum allowed dimension exceeded")
  else Raise (ValueError "incompatible dimensions for axis 1").
End Arrays.

(** [y[idx]] on a one-dimensional array. *)
Definition np_take {A} (y : list A) (idx : list nat) : result (list A) :=
  comprehension (λ i, match y !! i with Some d => Ok d | None => Raise IndexError end) idx.

(** [np.unique]: the sorted unique elements. *)
Definition np_unique (l : list nat) : list nat := merge_sort (≤) (remove_dups l).

(** ** TermMatch *)

Definition TermMatch {A} `{Inhabited A, Nonzero A} (X q : ndarray A) : result (list nat) :=
  let inverted_index := transpose X in
  let query_terms := (nonzero q).2 in
  matching_terms ← np_take_rows inverted_index query_terms;
  let matching_doc_indices := np_unique (nonzero matching_terms).2 in
  Ok matching_doc_indices.

Definition fixture_X : ndarray Z :=
  NDArray 3 [[0;0;1]; [0;1;0]; [0;1;1]; [1;0;0]; [1;0;1]; [1;1;0]]%Z.


(** ** Identifier arrays

    Document identifiers are integers, and the identifier array is an
    [int64] array: that is what [np.arange] builds and what [np.asarray]
    builds from Python integers in the [int64] range. Arithmetic on its
    entries is [int64] arithmetic and wraps around. Identifiers that make
    numpy choose another element type (an integer of [2^63] or more, an
    empty list, a float) are outside the model; the properties below say
    where they assume [int64] values. *)

Definition int64 (z : Z) : Prop := (- 2 ^ 63 ≤ z < 2 ^ 63)%Z.

(** The [int64] value of an integer result: reduced modulo [2^64] into
    [-2^63 .. 2^63-1]. *)
Definition wrap64 (z : Z) : Z := ((z + 2 ^ 63) mod 2 ^ 64 - 2 ^ 63)%Z.

(** [np.arange(a, b)] *)
Definition arange (a b : Z) : list Z :=
  (λ i, (a + Z.of_nat i)%Z) <$> seq 0 (Z.to_nat (b - a)).

(** [np.amax]: the maximum of a non-empty array. *)
Definition np_amax (y : list Z) : result Z :=
  match y with
  | [] => Raise (ValueError "zero-size array to reduction operation maximum which has no identity")
  | d :: y' => Ok (foldr Z.max d y')
  end.

Definition _checkXy {A B} (X : list A) (y : option (list B)) : result unit :=
  match y with
  | None => Ok ()
  | Some y =>
      if decide (length X ≠ length y)
      then Raise (ValueError "Shapes of X and y do not match.")
      else Ok ()
  end.

(** ** External collaborators *)

(** A scikit-learn vectorizer ([CountVectorizer], [TfidfVectorizer]) for
    documents of type [doc] with entries of type [A]: [fit] learns a
    vocabulary, and [transform] encodes each document as one row over it.
    The two ways in which scikit-learn refuses a batch are part of the
    store's methods below: [CountVectorizer.fit_transform] raises when the
    vocabulary comes out empty, and [TfidfVectorizer.transform] raises on
    an empty batch. The [TfidfVectorizer] is taken to accept, in [fit], the
    batch the [CountVectorizer] has just accepted. *)
Record Vectorizer (doc A : Type) : Type := {
  vocabulary : Type;
  v_fit : list doc → vocabulary;
  v_size : vocabulary → nat;
  v_row : vocabulary → doc → list A
}.
Arguments vocabulary {doc A} _.
Arguments v_fit {doc A} _ _.
Arguments v_size {doc A} _ _.
Arguments v_row {doc A} _ _ _.

(** Every encoded row has the width of the vocabulary. *)
Definition consistent {doc A} (V : Vectorizer doc A) : Prop :=
  ∀ v d, length (v_row V v d) = v_size V v.

(** [V.transform(X)] with the fitted vocabulary [v]. *)
Definition v_transform {doc A} (V : Vectorizer doc A) (v : vocabulary V)
    (X : list doc) : ndarray A :=
  NDArray (v_size V v) (v_row V v <$> X).

(** The functions [evaluate] takes from [rank_metrics] and [np.mean]; the
    scores are floating-point numbers, kept abstract. *)
Record RankMetrics : Type := {
  score : Type;
  ndcg_at_k : list Z → Z → nat → score;
  np_mean : list score → score;
  mean_reciprocal_rank : list (list Z) → score;
  mean_average_precision : list (list Z) → score
}.

Definition VALID_METRICS : list string :=
  ["mean_reciprocal_rank"; "mean_average_precision"; "average_ndcg_at_k"].

Definition average_ndcg_at_k (rm : RankMetrics) (rs : list (list Z)) (k : Z) : score rm :=
  let ndcgs := (λ r, ndcg_at_k rm r k 1) <$> rs in
  np_mean rm ndcgs.

(** ** Relevance judgments

    The shapes [evaluate] can be handed: a dict keyed by
    [(qid, docid)] pairs (or a pandas series with such an index), a dict of
    dicts, a list of dicts, and a dense [(n_queries, n_docs)] array. The
    first two have a [get] method, the last two do not. *)
Inductive judgments : Type :=
| FlatDict (m : gmap (Z * Z) Z)
| DictOfDicts (m : gmap Z (gmap Z Z))
| ListOfDicts (l : list (gmap Z Z))
| DenseArray (a : list (list Z)).

(** [l[i]] on a Python sequence: negative indices count from the end. *)
Definition py_index {A} (l : list A) (i : Z) : result A :=
  let n := Z.of_nat (length l) in
  let j := if decide (i < 0)%Z then (i + n)%Z else i in
  if decide (0 ≤ j)%Z
  then match l !! Z.to_nat j with Some x => Ok x | None => Raise IndexError end
  else Raise IndexError.

(** [Y.get((qid, docid), 0)]. In a dict of dicts the keys are query ids, so
    the pair is never a key. *)
Definition Y_get (Y : judgments) (key : Z * Z) (default : Z) : result Z :=
  match Y with
  | FlatDict m => Ok (match m !! key with Some g => g | None => default end)
  | DictOfDicts _ => Ok default
  | ListOfDicts _ | DenseArray _ => Raise (AttributeError "get")
  end.

(** [Y[qid][docid]] *)
Definition Y_getitem2 (Y : judgments) (qid docid : Z) : result Z :=
  match Y with
  | FlatDict _ => Raise KeyError
  | DictOfDicts m =>
      match m !! qid with
      | Some row => match row !! docid with Some g => Ok g | None => Raise KeyError end
      | None => Raise KeyError
      end
  | ListOfDicts l =>
      row ← py_index l qid;
      match row !! docid with Some g => Ok g | None => Raise KeyError end
  | DenseArray a =>
      row ← py_index a qid;
      py_index row docid
  end.

(** The [try] / [except AttributeError] of [evaluate]. *)
Definition relevance (Y : judgments) (qid : Z) (docids : list Z) : result (list Z) :=
  match comprehension (λ docid, Y_get Y (qid, docid) 0%Z) docids with
  | Raise (AttributeError _) => comprehension (λ docid, Y_getitem2 Y qid docid) docids
  | r => r
  end.

(** ** The index store *)

Inductive matching_result (doc : Type) : Type :=
| Indices (ind : list nat)
| Matched (docs : list doc) (ids : list Z).
Arguments Indices {doc} ind.
Arguments Matched {doc} docs ids.

(** One call of the nearest-neighbour search: the restricted matrix it was
    fitted on, the query vector and [n_neighbors]. *)
Record nn_call (weight : Type) : Type := NNCall {
  nn_fit_X : ndarray weight;
  nn_query : ndarray weight;
  nn_n_neighbors : Z
}.
Arguments NNCall {weight} _ _ _.

Section Retrieval.
Context {doc weight : Type}.
(** [self._cv], a [CountVectorizer(binary=True, dtype=bool)]. *)
Variable CV : Vectorizer doc bool.
(** [self.vectorizer], a [TfidfVectorizer]. *)
Variable TV : Vectorizer doc weight.
(** [NearestNeighbors(metric='cosine', algorithm='brute').fit(Xm)
    .kneighbors(q, n_neighbors, return_distance=False)[0]] *)
Variable kneighbors : ndarray weight → ndarray weight → Z → result (list nat).
Variable rm : RankMetrics.

Definition matcher : Type := ndarray bool → ndarray bool → result (list nat).

(** The attributes of a [TfidfRetrieval] object. The two vectorizer
    objects always exist; [None] there is the vectorizer before [fit]. *)
Record store : Type := Store {
  _match_fn : option matcher;
  _cv : option (vocabulary CV);
  vectorizer : option (vocabulary TV);
  _inv_X : option (ndarray bool);
  _fit_X : option (list doc);
  _y : option (list Z);
  n_docs : option nat;
  _X : option (ndarray weight)
}.

(** Methods on [self]: state and exceptions. *)
Definition M (A : Type) : Type := store → store * result A.

#[local] Instance M_ret : MRet M := λ A a self, (self, Ok a).
#[local] Instance M_bind : MBind M := λ A B f m self,
  match m self with
  | (self', Ok a) => f a self'
  | (self', Raise e) => (self', Raise e)
  end.

Definition lift {A} (r : result A) : M A := λ self, (self, r).

(** [self.<name>] *)
Definition attr {A} (field : store → option A) (name : string) : M A := λ self,
  match field self with
  | Some a => (self, Ok a)
  | None => (self, Raise (AttributeError name))
  end.

Definition set__cv (v : vocabulary CV) : M unit := λ self,
  (Store (_match_fn self) (Some v) (vectorizer self) (_inv_X self) (_fit_X self)
     (_y self) (n_docs self) (_X self), Ok ()).
Definition set_vectorizer (v : vocabulary TV) : M unit := λ self,
  (Store (_match_fn self) (_cv self) (Some v) (_inv_X self) (_fit_X self)
     (_y self) (n_docs self) (_X self), Ok ()).
Definition set__inv_X (a : ndarray bool) : M unit := λ self,
  (Store (_match_fn self) (_cv self) (vectorizer self) (Some a) (_fit_X self)
     (_y self) (n_docs self) (_X self), Ok ()).
Definition set__y (y : list Z) : M unit := λ self,
  (Store (_match_fn self) (_cv self) (vectorizer self) (_inv_X self) (_fit_X self)
     (Some y) (n_docs self) (_X self), Ok ()).
Definition set_n_docs (n : nat) : M unit := λ self,
  (Store (_match_fn self) (_cv self) (vectorizer self) (_inv_X self) (_fit_X self)
     (_y self) (Some n) (_X self), Ok ()).
Definition set__X (a : ndarray weight) : M unit := λ self,
  (Store (_match_fn self) (_cv self) (vectorizer self) (_inv_X self) (_fit_X self)
     (_y self) (n_docs self) (Some a), Ok ()).

(** [self._cv.transform(X)] *)
Definition cv_transform (X : list doc) : M (ndarray bool) := λ self,
  match _cv self with
  | Some v => (self, Ok (v_transform CV v X))
  | None => (self, Raise NotFittedError)
  end.

(** [cv.fit_transform(X)]: learns the vocabulary and encodes [X]. When the
    vocabulary comes out empty, as it does for an empty batch, it raises
    and leaves the vectorizer as it was. *)
Definition cv_fit_transform (X : list doc) : M (ndarray bool) := λ self,
  if decide (length X = 0 ∨ v_size CV (v_fit CV X) = 0)
  then (self, Raise (ValueError
                       "empty vocabulary; perhaps the documents only contain stop words"))
  else (set__cv (v_fit CV X);; cv_transform X) self.

(** [self.vectorizer.transform(X)]; an empty batch is refused. *)
Definition tfidf_transform (X : list doc) : M (ndarray weight) := λ self,
  match vectorizer self with
  | Some v =>
      match X with
      | [] => (self, Raise (ValueError "Found array with 0 sample(s)"))
      | _ => (self, Ok (v_transform TV v X))
      end
  | None => (self, Raise NotFittedError)
  end.

(** The constructor of [TfidfRetrieval]: both vectorizers are created, not
    yet fitted, and [_init_params(name='TFIDF')] selects [TermMatch]; no
    array attribute is assigned. The [name] attribute plays no role and is
    left out. *)
Definition TfidfRetrieval : store :=
  Store (Some TermMatch) None None None None None None None.

Definition _fit (X : list doc) (y : option (list Z)) : M unit :=
  lift (_checkXy X y);;
  inv ← cv_fit_transform X;
  set__inv_X inv;;
  let n := length X in
  set__y (match y with None => arange 0 (Z.of_nat n) | Some y => y end);;
  set_n_docs n.

Definition _partial_fit (X : list doc) (y : option (list Z)) : M unit :=
  lift (_checkXy X y);;
  inv ← attr _inv_X "_inv_X";
  new ← cv_transform X;
  stacked ← lift (vstack inv new);
  set__inv_X stacked;;
  old_y ← attr _y "_y";
  top ← lift (np_amax old_y);
  let next_id := wrap64 (top + 1) in
  let y := match y with
           | None => arange next_id (wrap64 (next_id + Z.of_nat (length X)))
           | Some y => y
           end in
  old_y ← attr _y "_y";
  set__y (old_y ++ y);;
  n ← attr n_docs "n_docs";
  set_n_docs (n + length X).

Definition fit (X : list doc) (y : option (list Z)) : M unit :=
  _fit X y;;
  set_vectorizer (v_fit TV X);;
  Xt ← tfidf_transform X;
  set__X Xt.

Definition partial_fit (X : list doc) (y : option (list Z)) : M unit :=
  _partial_fit X y;;
  Xt ← tfidf_transform X;
  old ← attr _X "_X";
  stacked ← lift (vstack old Xt);
  set__X stacked.

Definition _matching (query : doc) (return_indices : bool) : M (matching_result doc) :=
  λ self,
  (inv ← attr _inv_X "_inv_X";
   q ← cv_transform [query];
   match _match_fn self with
   | Some match_fn =>
       ind ← lift (match_fn inv q);
       if return_indices then mret (Indices ind)
       else
         docs ← attr _fit_X "_fit_X";
         docs_ind ← lift (np_take docs ind);
         ids ← attr _y "_y";
         ids_ind ← lift (np_take ids ind);
         mret (Matched docs_ind ids_ind)
   | None =>
       docs ← attr _fit_X "_fit_X";
       ids ← attr _y "_y";
       mret (Matched docs ids)
   end) self.

(** Queries: exceptions, and the log of the nearest-neighbour calls made. *)
Definition Q (A : Type) : Type := list (nn_call weight) * result A.

#[local] Instance Q_ret : MRet Q := λ A a, ([], Ok a).
#[local] Instance Q_bind : MBind Q := λ A B f m,
  match m with
  | (log, Ok a) => let '(log', r) := f a in (log ++ log', r)
  | (log, Raise e) => (log, Raise e)
  end.

Definition pure {A} (r : result A) : Q A := ([], r).

(** A method of [self] called from a query. *)
Definition on {A} (self : store) (m : M A) : Q A := ([], (m self).2).

Definition call_kneighbors (Xm q : ndarray weight) (n_neighbors : Z) : Q (list nat) :=
  ([NNCall Xm q n_neighbors], kneighbors Xm q n_neighbors).

(** [TfidfRetrieval.query]; [verbose] only prints and is left out. With
    [_match_fn = None], [_matching] hands back a pair of arrays instead of
    indices, which cannot index [self._X]. *)
Definition query (self : store) (query : doc) (k : Z) : Q (list Z) :=
  matching ← on self (_matching query true);
  match matching with
  | Indices matching_ind =>
      X ← on self (attr _X "_X");
      Xm ← pure (np_take_rows X matching_ind);
      y ← on self (attr _y "_y");
      matched_doc_ids ← pure (np_take y matching_ind);
      let n_match := Z.of_nat (length matching_ind) in
      let n_ret := Z.min n_match k in
      if decide (n_ret = 0%Z) then mret []
      else
        q ← on self (tfidf_transform [query]);
        ind ← call_kneighbors Xm q n_ret;
        labels ← pure (np_take matched_doc_ids ind);
        mret labels
  | Matched _ _ => pure (Raise IndexError)
  end.

(** The [for qid, query in X] loop of [evaluate], collecting [rs]. *)
Fixpoint evaluate_rs (self : store) (X : list (Z * doc)) (Y : judgments) (k : Z)
    : Q (list (list Z)) :=
  match X with
  | [] => mret []
  | (qid, text) :: X' =>
      retrieved ← query self text k;
      r ← pure (relevance Y qid retrieved);
      rs ← evaluate_rs self X' Y k;
      mret (r :: rs)
  end.

Definition evaluate (self : store) (X : list (Z * doc)) (Y : judgments) (k : Z)
    (metrics : list string) : Q (gmap string (score rm)) :=
  rs ← evaluate_rs self X Y k;
  let values : gmap string (score rm) := ∅ in
  let values :=
    if decide ("average_ndcg_at_k" ∈ metrics)
    then <["average_ndcg_at_k" := average_ndcg_at_k rm rs k]> values else values in
  let values :=
    if decide ("mean_reciprocal_rank" ∈ metrics)
    then <["mean_reciprocal_rank" := mean_reciprocal_rank rm rs]> values else values in
  let values :=
    if decide ("mean_average_precision" ∈ metrics)
    then <["mean_average_precision" := mean_average_precision rm rs]> values else values in
  mret values.

(** ** Histories of calls *)

Inductive call : Type :=
| Fit (X : list doc) (y : option (list Z))
| PartialFit (X : list doc) (y : option (list Z)).

Definition exec (c : call) : M unit :=
  match c with
  | Fit X y => fit X y
  | PartialFit X y => partial_fit X y
  end.

(** The object after a history of calls; a call that raised leaves the
    object as it was at the raise. *)
Definition run (self : store) (history : list call) : store :=
  foldl (λ self c, (exec c self).1) self history.

(** The three parallel arrays are present and row-aligned. *)
Definition aligned (self : store) : Prop :=
  ∃ inv X y n,
    _inv_X self = Some inv ∧ _X self = Some X ∧ _y self = Some y ∧
    n_docs self = Some n ∧
    n_rows inv = n ∧ n_rows X = n ∧ length y = n.
End Retrieval.

Arguments store {doc weight} CV TV.
Arguments Store {doc weight CV TV} _ _ _ _ _ _ _ _.
Arguments _match_fn {doc weight CV TV} self : rename.
Arguments _cv {doc weight CV TV} self : rename.
Arguments vectorizer {doc weight CV TV} self : rename.
Arguments _inv_X {doc weight CV TV} self : rename.
Arguments _fit_X {doc weight CV TV} self : rename.
Arguments _y {doc weight CV TV} self : rename.
Arguments n_docs {doc weight CV TV} self : rename.
Arguments _X {doc weight CV TV} self : rename.
Arguments fit {doc weight CV TV} X y self : rename.
Arguments partial_fit {doc weight CV TV} X y self : rename.
Arguments _fit {doc weight CV TV} X y self : rename.
Arguments _partial_fit {doc weight CV TV} X y self : rename.
Arguments _matching {doc weight CV TV} query return_indices self : rename.
Arguments query {doc weight CV TV} kneighbors self query k.
Arguments evaluate_rs {doc weight CV TV} kneighbors self X Y k.
Arguments evaluate {doc weight CV TV} kneighbors rm self X Y k metrics.
Arguments exec {doc weight CV TV} c self : rename.
Arguments run {doc weight CV TV} self history.
Arguments aligned {doc weight CV TV} self.
Arguments Fit {doc} X y.
Arguments PartialFit {doc} X y.

(** ** A small executable instance

    Documents are token lists; the vocabulary is the list of distinct tokens
    of the fitted batch; weights are term counts; the nearest-neighbour
    search orders rows by cosine similarity, compared exactly on squares. *)
Module Toy.
Definition doc : Type := list string.

Definition count (t : string) (d : doc) : Z :=
  Z.of_nat (length (filter (λ t', t' = t) d)).

Definition CV : Vectorizer doc bool := {|
  vocabulary := list string;
  v_fit := λ X, remove_dups (concat X);
  v_size := λ v, length v;
  v_row := λ v d, (λ t, bool_decide (t ∈ d)) <$> v
|}.

Definition TV : Vectorizer doc Z := {|
  vocabulary := list string;
  v_fit := λ X, remove_dups (concat X);
  v_size := λ v, length v;
  v_row := λ v d, (λ t, count t d) <$> v
|}.

Definition dot (a b : list Z) : Z := foldr Z.add 0%Z (zip_with Z.mul a b).

(** [a] is at least as similar to [q] as [b] is (all weights are ≥ 0). *)
Definition closer (q : list Z) (a b : nat * list Z) : Prop :=
  ((dot b.2 q) ^ 2 * dot a.2 a.2 ≤ (dot a.2 q) ^ 2 * dot b.2 b.2)%Z.

#[global] Instance closer_dec q a b : Decision (closer q a b).
Proof. unfold closer. apply _. Defined.

Definition kneighbors (Xm q : ndarray Z) (n : Z) : result (list nat) :=
  if decide (n_rows Xm = 0) then Raise (ValueError "Found array with 0 sample(s)")
  else if decide (n ≤ 0)%Z then Raise (ValueError "Expected n_neighbors > 0")
  else if decide (Z.of_nat (n_rows Xm) < n)%Z
       then Raise (ValueError "Expected n_neighbors <= n_samples")
  else
    let q0 := default [] (rows q !! 0) in
    Ok (take (Z.to_nat n) (merge_sort (closer q0) (imap pair (rows Xm))).*1).

Definition rm : RankMetrics := {|
  score := Z;
  ndcg_at_k := λ r k method, 0%Z;
  np_mean := λ l, 0%Z;
  mean_reciprocal_rank := λ rs, 0%Z;
  mean_average_precision := λ rs, 0%Z
|}.

Definition docs : list doc :=
  [["the"; "quick"]; ["brown"; "fox"]; ["jumps"; "over"]; ["the"; "lazy"; "dog"]].

Definition fitted : store CV TV := (fit docs None (TfidfRetrieval CV TV)).1.
Definition extended : store CV TV :=
  (partial_fit [["new"; "fox"; "doc"]] None fitted).1.
End Toy.


(** * Properties *)

(** ** Generic facts about comprehensions and arrays *)

Lemma comprehension_total {A B} (f : A → result B) (g : A → B) (l : list A) :
  (∀ x, x ∈ l → f x = Ok (g x)) → comprehension f l = Ok (g <$> l).
Proof.
  induction l as [|x l IH]; intros Hf; [done|]. cbn.
  rewrite (Hf x) by left. cbn. rewrite IH; [done|].
  intros z Hz. apply Hf. by right.
Qed.

Lemma comprehension_Ok_lookup {A B} (f : A → result B) l ys i y :
  comprehension f l = Ok ys → ys !! i = Some y → ∃ x, l !! i = Some x ∧ f x = Ok y.
Proof.
  revert ys i. induction l as [|x l IH]; intros ys i; cbn.
  - intros [= <-]. by rewrite lookup_nil.
  - destruct (f x) as [b|] eqn:Hb; [|done]. cbn.
    destruct (comprehension f l) as [bs|] eqn:Hbs; [|done]. cbn.
    intros [= <-]. destruct i as [|i]; cbn.
    + intros [= <-]. eauto.
    + intros Hy. by apply (IH bs).
Qed.

Lemma np_take_Ok_elem {A} (y : list A) idx ds d :
  np_take y idx = Ok ds → d ∈ ds → ∃ i, i ∈ idx ∧ y !! i = Some d.
Proof.
  intros Hds [p Hp]%list_elem_of_lookup.
  destruct (comprehension_Ok_lookup _ _ _ _ _ Hds Hp) as (i & Hi & Hy).
  exists i. split; [by eapply list_elem_of_lookup_2|].
  by destruct (y !! i); simplify_eq.
Qed.

Section ArrayFacts.
Context {A : Type} `{Inhabited A, Nonzero A}.

Lemma elem_of_nonzero_from (r : list A) j j' :
  j' ∈ nonzero_from j r ↔
  j ≤ j' ∧ ∃ x, r !! (j' - j) = Some x ∧ is_nonzero x = true.
Proof.
  revert j. induction r as [|x r IH]; intros j; cbn.
  - split; [by intros ?%elem_of_nil | by intros (_ & ? & ? & _)].
  - rewrite elem_of_app, IH. split.
    + intros [Hx | (Hle & y & Hy & Hnz)].
      * destruct (is_nonzero x) eqn:Hnz; [|by apply elem_of_nil in Hx].
        apply list_elem_of_singleton in Hx as ->. split; [lia|].
        exists x. by rewrite Nat.sub_diag.
      * split; [lia|]. exists y. split; [|done].
        by replace (j' - j) with (S (j' - S j)) by lia.
    + intros (Hle & y & Hy & Hnz).
      destruct (decide (j' = j)) as [->|Hne].
      * rewrite Nat.sub_diag in Hy. cbn in Hy. simplify_eq.
        left. rewrite Hnz. by left.
      * right. split; [lia|]. exists y. split; [|done].
        by replace (j' - j) with (S (j' - S j)) in Hy by lia.
Qed.

Lemma elem_of_nonzero_cols (a : ndarray A) j :
  j ∈ (nonzero a).2 ↔
  ∃ i r x, rows a !! i = Some r ∧ r !! j = Some x ∧ is_nonzero x = true.
Proof.
  unfold nonzero. cbn. rewrite list_elem_of_fmap. split.
  - intros ([i' j'] & -> & Hin). cbn.
    apply list_elem_of_join in Hin as (l & Hin & Hl).
    apply list_elem_of_lookup in Hl as (i & Hl).
    apply list_lookup_imap_Some in Hl as (r & Hr & ->).
    apply list_elem_of_fmap in Hin as (j & [= -> ->] & Hj).
    apply elem_of_nonzero_from in Hj as (_ & x & Hx & Hnz).
    rewrite Nat.sub_0_r in Hx. eauto 6.
  - intros (i & r & x & Hr & Hx & Hnz). exists (i, j). split; [done|].
    apply list_elem_of_join. exists ((λ j, (i, j)) <$> nonzero_from 0 r). split.
    + apply list_elem_of_fmap. exists j. split; [done|].
      apply elem_of_nonzero_from. split; [lia|]. exists x.
      by rewrite Nat.sub_0_r.
    + apply list_elem_of_lookup. exists i.
      apply list_lookup_imap_Some. eauto.
Qed.

Lemma nonzero_cols_bound (a : ndarray A) j :
  well_shaped a → j ∈ (nonzero a).2 → j < n_cols a.
Proof.
  intros Hwf (i & r & x & Hr & Hx & _)%elem_of_nonzero_cols.
  unfold well_shaped in Hwf. rewrite Forall_lookup in Hwf.
  rewrite <-(Hwf i r Hr). by eapply lookup_lt_Some.
Qed.

Lemma transpose_lookup (a : ndarray A) j :
  j < n_cols a → rows (transpose a) !! j = Some ((λ r, r !!! j) <$> rows a).
Proof.
  intros Hj. unfold transpose. cbn. rewrite list_lookup_fmap.
  by rewrite lookup_seq_lt.
Qed.

Lemma np_take_rows_transpose (a : ndarray A) idx :
  (∀ j, j ∈ idx → j < n_cols a) →
  np_take_rows (transpose a) idx =
  Ok (NDArray (n_rows a) ((λ j, (λ r, r !!! j) <$> rows a) <$> idx)).
Proof.
  intros Hidx. unfold np_take_rows.
  rewrite (comprehension_total _ (λ j, (λ r, r !!! j) <$> rows a)); [done|].
  intros j Hj. by rewrite transpose_lookup by auto.
Qed.
End ArrayFacts.

(** ** [np.unique] *)

Lemma elem_of_np_unique l i : i ∈ np_unique l ↔ i ∈ l.
Proof. unfold np_unique. by rewrite merge_sort_Permutation, elem_of_remove_dups. Qed.

Lemma NoDup_np_unique l : NoDup (np_unique l).
Proof. unfold np_unique. rewrite merge_sort_Permutation. apply NoDup_remove_dups. Qed.

Lemma StronglySorted_le_lt (l : list nat) :
  StronglySorted (≤) l → NoDup l → StronglySorted (<) l.
Proof.
  induction 1 as [|x l Hl IH Hx]; intros Hnd; [constructor|].
  apply NoDup_cons in Hnd as [Hx' Hnd]. constructor; [by apply IH|].
  rewrite Forall_forall in Hx |- *. intros z Hz.
  specialize (Hx z Hz). assert (x ≠ z) by (by intros ->). lia.
Qed.

Lemma np_unique_increasing l : StronglySorted (<) (np_unique l).
Proof.
  apply StronglySorted_le_lt; [|apply NoDup_np_unique].
  unfold np_unique. apply (StronglySorted_merge_sort (≤)).
Qed.

Lemma StronglySorted_filter_seq (P : nat → Prop) `{∀ i, Decision (P i)} j n :
  StronglySorted (<) (filter P (seq j n)).
Proof.
  revert j. induction n as [|n IH]; intros j; [constructor|].
  change (seq j (S n)) with (j :: seq (S j) n). rewrite filter_cons. destruct (decide (P j)); [|apply IH].
  constructor; [apply IH|].
  apply Forall_forall. intros z [_ Hz%elem_of_seq]%list_elem_of_filter. lia.
Qed.

Lemma increasing_ext (l1 l2 : list nat) :
  StronglySorted (<) l1 → StronglySorted (<) l2 →
  (∀ i, i ∈ l1 ↔ i ∈ l2) → l1 = l2.
Proof.
  intros Hl1 Hl2 Hext.
  assert (∀ l, StronglySorted (<) l → NoDup l) as Hnd.
  { induction 1 as [|x l Hl IH Hx]; constructor; [|done].
    rewrite Forall_forall in Hx. intros Hin. specialize (Hx _ Hin). lia. }
  apply (StronglySorted_unique_strong (<)); [intros; lia|done..|].
  apply NoDup_Permutation; auto.
Qed.

(** ** TermMatch is OR-matching over the query's terms *)

(** [row AND qrow != all-zero]: some position is non-zero in both. *)
Definition overlaps {A} `{Nonzero A} (row qrow : list A) : bool :=
  existsb id (zip_with (λ x y, is_nonzero x && is_nonzero y) row qrow).

(** The indices of the rows of [X] that overlap the (single) row of [q], in
    increasing order. *)
Definition overlapping_rows {A} `{Nonzero A} (X q : ndarray A) : list nat :=
  let qrow := default [] (rows q !! 0) in
  filter (λ i, match rows X !! i with
               | Some row => overlaps row qrow
               | None => false
               end = true) (seq 0 (n_rows X)).

Lemma overlaps_spec {A} `{Nonzero A} (row qrow : list A) :
  overlaps row qrow = true ↔
  ∃ j x y, row !! j = Some x ∧ qrow !! j = Some y ∧
           is_nonzero x = true ∧ is_nonzero y = true.
Proof.
  unfold overlaps. rewrite existsb_exists. split.
  - intros (b & Hin & Hb). unfold id in Hb. subst b.
    apply list_elem_of_In, list_elem_of_lookup in Hin as (j & Hj).
    apply lookup_zip_with_Some in Hj as (x & y & Hxy & Hx & Hy).
    symmetry in Hxy. apply andb_true_iff in Hxy as [??]. eauto 8.
  - intros (j & x & y & Hx & Hy & Hnx & Hny). exists true. split; [|done].
    apply list_elem_of_In, list_elem_of_lookup. exists j.
    apply lookup_zip_with_Some. exists x, y. by rewrite Hnx, Hny.
Qed.

Lemma TermMatch_overlapping_rows {A} `{Inhabited A, Nonzero A} (X q : ndarray A) :
  well_shaped X → well_shaped q → n_rows q = 1 → n_cols q = n_cols X →
  TermMatch X q = Ok (overlapping_rows X q).
Proof.
  intros HX Hq Hq1 Hcols.
  destruct q as [qc [|qrow [|??]]]; try done. cbn in Hcols. clear Hq1.
  apply Forall_cons in Hq as [Hq _]. cbn in Hq.
  set (q := NDArray qc [qrow]). unfold TermMatch.
  rewrite np_take_rows_transpose; last first.
  { intros j Hj. rewrite <-Hcols. apply (nonzero_cols_bound q); [|done].
    by apply Forall_singleton. }
  unfold mbind, result_bind. cbv beta iota zeta. f_equal. apply increasing_ext.
  { apply np_unique_increasing. }
  { apply StronglySorted_filter_seq. }
  intros i. rewrite elem_of_np_unique, elem_of_nonzero_cols. cbn [rows].
  unfold overlapping_rows. rewrite list_elem_of_filter, elem_of_seq.
  cbn [rows q lookup list_lookup default]. unfold n_rows.
  unfold well_shaped in HX. rewrite Forall_lookup in HX. split.
  - intros (t & col & x & Hcol & Hx & Hnx).
    apply list_lookup_fmap_Some in Hcol as (j & -> & Hj).
    apply list_lookup_fmap_Some in Hx as (row & -> & Hrow).
    rewrite Hrow. split; [|apply lookup_lt_Some in Hrow; unfold n_rows; lia].
    apply list_elem_of_lookup_2, elem_of_nonzero_cols in Hj
      as (i0 & r & y & Hr & Hy & Hny).
    destruct i0; [|by destruct i0]. cbn in Hr. simplify_eq.
    apply overlaps_spec. exists j, (row !!! j), y. split_and!; try done.
    apply list_lookup_lookup_total_lt. rewrite (HX _ _ Hrow).
    apply lookup_lt_Some in Hy. lia.
  - intros [Hov _]. destruct (rows X !! i) as [row|] eqn:Hrow; [|done].
    apply overlaps_spec in Hov as (j & x & y & Hx & Hy & Hnx & Hny).
    assert (j ∈ (nonzero q).2) as [t Ht]%list_elem_of_lookup.
    { apply elem_of_nonzero_cols. by exists 0, qrow, y. }
    exists t, ((λ r, r !!! j) <$> rows X), x. split_and!; [|  |done].
    + by rewrite list_lookup_fmap, Ht.
    + rewrite list_lookup_fmap, Hrow. cbn. f_equal.
      by apply list_lookup_total_correct.
Qed.

(** C1. For a well-shaped matrix [X] of shape (n_documents, n_terms) and a
    well-shaped query [q] of shape (1, n_terms), [TermMatch X q] returns
    without raising, and what it returns is exactly the increasing
    enumeration of the rows [i] with [row_i AND q] not all-zero: the
    sequence is strictly increasing, has no duplicates, and contains [i]
    if and only if row [i] of [X] and the row of [q] are both non-zero at
    some common column. On the fixture matrix, the query [0,0,1] gives
    [0,2,4], the query [1,1,1] gives all six indices and the query [0,0,0]
    gives the empty sequence. *)
Theorem TermMatch_correct {A} `{Inhabited A, Nonzero A} (X q : ndarray A) :
  well_shaped X → well_shaped q → n_rows q = 1 → n_cols q = n_cols X →
  (∃ ind,
      TermMatch X q = Ok ind ∧
      ind = overlapping_rows X q ∧
      StronglySorted (<) ind ∧ NoDup ind ∧
      ∀ i, i ∈ ind ↔
           ∃ row qrow j x y,
             rows X !! i = Some row ∧ rows q !! 0 = Some qrow ∧
             row !! j = Some x ∧ qrow !! j = Some y ∧
             is_nonzero x = true ∧ is_nonzero y = true) ∧
  TermMatch fixture_X (NDArray 3 [[0; 0; 1]%Z]) = Ok [0; 2; 4] ∧
  TermMatch fixture_X (NDArray 3 [[1; 1; 1]%Z]) = Ok [0; 1; 2; 3; 4; 5] ∧
  TermMatch fixture_X (NDArray 3 [[0; 0; 0]%Z]) = Ok [].
Proof.
  intros HX Hq Hq1 Hcols. split; [|by vm_compute].
  rewrite TermMatch_overlapping_rows by done.
  eexists. split_and!; [done|done|..].
  - apply StronglySorted_filter_seq.
  - apply NoDup_filter, NoDup_seq.
  - intros i. unfold overlapping_rows. rewrite list_elem_of_filter, elem_of_seq.
    destruct q as [qc [|qrow [|??]]]; try done. cbn. split.
    + intros [Hov _]. destruct (rows X !! i) as [row|]; [|done].
      apply overlaps_spec in Hov as (j & x & y & Hx & Hy & Hnx & Hny).
      by exists row, qrow, j, x, y.
    + intros (row & qrow' & j & x & y & Hrow & [= <-] & Hrest).
      rewrite Hrow. split; [|apply lookup_lt_Some in Hrow; unfold n_rows; lia].
      apply overlaps_spec. eauto.
Qed.

Lemma fixture_X_well_shaped : well_shaped fixture_X.
Proof. unfold well_shaped. cbn. repeat constructor. Qed.

Lemma TermMatch_correct_witness :
  (∃ ind,
      TermMatch fixture_X (NDArray 3 [[0; 1; 1]%Z]) = Ok ind ∧
      ind = overlapping_rows fixture_X (NDArray 3 [[0; 1; 1]%Z]) ∧
      StronglySorted (<) ind ∧ NoDup ind ∧
      ∀ i, i ∈ ind ↔
           ∃ row qrow j x y,
             rows fixture_X !! i = Some row ∧
             rows (NDArray 3 [[0; 1; 1]%Z]) !! 0 = Some qrow ∧
             row !! j = Some x ∧ qrow !! j = Some y ∧
             is_nonzero x = true ∧ is_nonzero y = true) ∧
  TermMatch fixture_X (NDArray 3 [[0; 0; 1]%Z]) = Ok [0; 2; 4] ∧
  TermMatch fixture_X (NDArray 3 [[1; 1; 1]%Z]) = Ok [0; 1; 2; 3; 4; 5] ∧
  TermMatch fixture_X (NDArray 3 [[0; 0; 0]%Z]) = Ok [].
Proof.
  apply (TermMatch_correct fixture_X (NDArray 3 [[0; 1; 1]%Z])).
  - apply fixture_X_well_shaped.
  - unfold well_shaped. cbn. repeat constructor.
  - reflexivity.
  - reflexivity.
Defined.

(** ** The index store: [fit] and [partial_fit] *)

Lemma np_amax_Ok (ids : list Z) (m : Z) :
  np_amax ids = Ok m → m ∈ ids ∧ ∀ d, d ∈ ids → (d ≤ m)%Z.
Proof.
  destruct ids as [|d ids]; [done|]. cbn. intros [= <-].
  induction ids as [|z ids [IHin IHmax]]; cbn.
  - split; [left|]. by intros ? ->%list_elem_of_singleton.
  - split.
    + destruct (Z.max_spec z (foldr Z.max d ids)) as [[_ ->]|[_ ->]].
      * apply elem_of_cons in IHin as [->|?]; [left|right; by right].
      * right; left.
    + intros z0 Hz0. assert (z0 = z ∨ z0 ∈ d :: ids) as [->|Hin].
      { apply elem_of_cons in Hz0 as [->|Hz0]; [right; left|].
        apply elem_of_cons in Hz0 as [->|?]; [by left|right; by right]. }
      * lia.
      * specialize (IHmax _ Hin). lia.
Qed.

Lemma np_amax_max (ids : list Z) (m : Z) :
  m ∈ ids → (∀ d, d ∈ ids → (d ≤ m)%Z) → np_amax ids = Ok m.
Proof.
  intros Hin Hmax. destruct (np_amax ids) as [top|e] eqn:Htop.
  - apply np_amax_Ok in Htop as [Hin' Hmax'].
    specialize (Hmax _ Hin'). specialize (Hmax' _ Hin). f_equal. lia.
  - destruct ids; [by apply elem_of_nil in Hin|done].
Qed.

Lemma length_arange (a b : Z) : length (arange a b) = Z.to_nat (b - a).
Proof. unfold arange. by rewrite length_fmap, length_seq. Qed.

Lemma arange_consecutive (a : Z) (n : nat) :
  arange a (a + Z.of_nat n) = (λ i, (a + Z.of_nat i)%Z) <$> seq 0 n.
Proof. unfold arange. do 2 f_equal. lia. Qed.

Lemma arange_app (a : Z) (n k : nat) :
  arange a (a + Z.of_nat n) ++ arange (a + Z.of_nat n) (a + Z.of_nat n + Z.of_nat k)
  = arange a (a + Z.of_nat (n + k)).
Proof.
  rewrite !arange_consecutive, seq_app, fmap_app. f_equal.
  apply list_eq. intros i. rewrite !list_lookup_fmap.
  destruct (decide (i < k)) as [Hi|Hi].
  - rewrite !lookup_seq_lt by done. cbn. f_equal. lia.
  - by rewrite !lookup_seq_ge by lia.
Qed.

Lemma arange_0_app (n k : nat) :
  arange 0 (Z.of_nat n) ++ arange (Z.of_nat n) (Z.of_nat n + Z.of_nat k)
  = arange 0 (Z.of_nat (n + k)).
Proof. pose proof (arange_app 0 n k) as Happ. by rewrite !Z.add_0_l in Happ. Qed.

Lemma elem_of_arange (a b d : Z) : d ∈ arange a b ↔ (a ≤ d < b)%Z.
Proof.
  unfold arange. rewrite list_elem_of_fmap. split.
  - intros (i & -> & Hi%elem_of_seq). lia.
  - intros Hd. exists (Z.to_nat (d - a)). split; [lia|]. apply elem_of_seq. lia.
Qed.

Lemma NoDup_arange (a b : Z) : NoDup (arange a b).
Proof.
  unfold arange. apply NoDup_fmap_2; [|apply NoDup_seq].
  intros i j Hij. lia.
Qed.

Lemma Forall_int64_arange (a b : Z) : int64 a → int64 b → Forall int64 (arange a b).
Proof.
  unfold int64. intros Ha Hb. apply Forall_forall. intros d Hd%elem_of_arange. lia.
Qed.

Lemma wrap64_int64 (z : Z) : int64 z → wrap64 z = z.
Proof.
  unfold int64, wrap64. intros Hz.
  change (2 ^ 64)%Z with (2 * 2 ^ 63)%Z. rewrite Z.mod_small; lia.
Qed.

Lemma int64_wrap64 (z : Z) : int64 (wrap64 z).
Proof.
  unfold int64, wrap64.
  pose proof (Z.mod_pos_bound (z + 2 ^ 63) (2 ^ 64) eq_refl) as Hmod.
  change (2 ^ 64)%Z with (2 * 2 ^ 63)%Z in *. lia.
Qed.

(** The identifiers [_partial_fit] assigns on its own fill the range it
    means to fill: [next_id + len(X)] does not leave the [int64] range. *)
Definition no_id_overflow (ids : list Z) (n : nat) : Prop :=
  ∀ top, np_amax ids = Ok top → (wrap64 (top + 1) + Z.of_nat n < 2 ^ 63)%Z.

Section StoreFacts.
Context {doc weight : Type}.
Variable CV : Vectorizer doc bool.
Variable TV : Vectorizer doc weight.
Implicit Types self : store CV TV.

(** Unfold one method call on a store given by its fields. *)
Ltac method :=
  unfold fit, partial_fit, _fit, _partial_fit, _matching, cv_fit_transform,
    mbind, M_bind, mret, M_ret, lift, attr, cv_transform, tfidf_transform,
    set__cv, set_vectorizer, set__inv_X, set__y, set_n_docs, set__X;
  cbn.

Definition shape_error : exn := ValueError "Shapes of X and y do not match.".

Definition empty_vocabulary_error : exn :=
  ValueError "empty vocabulary; perhaps the documents only contain stop words".

(** The count vectorizer refuses the batch. *)
Definition refused (X : list doc) : Prop :=
  length X = 0 ∨ v_size CV (v_fit CV X) = 0.

Lemma fit_unfold (X : list doc) (y : option (list Z)) self :
  fit X y self =
  match _checkXy X y with
  | Raise e => (self, Raise e)
  | Ok _ =>
      if decide (refused X) then (self, Raise empty_vocabulary_error)
      else
        (Store (_match_fn self) (Some (v_fit CV X)) (Some (v_fit TV X))
           (Some (v_transform CV (v_fit CV X) X)) (_fit_X self)
           (Some (match y with
                  | None => arange 0 (Z.of_nat (length X))
                  | Some y => y
                  end))
           (Some (length X)) (Some (v_transform TV (v_fit TV X) X)), Ok ())
  end.
Proof.
  method. destruct (_checkXy X y); [|done]. cbn. unfold refused.
  destruct (decide (length X = 0 ∨ v_size CV (v_fit CV X) = 0)) as [|Hacc]; [done|].
  cbn. destruct X; [|done]. cbn in Hacc. tauto.
Qed.

(** The identifiers [_partial_fit] appends. *)
Definition assigned (top : Z) (X : list doc) (y : option (list Z)) : list Z :=
  match y with
  | None =>
      arange (wrap64 (top + 1)) (wrap64 (wrap64 (top + 1) + Z.of_nat (length X)))
  | Some y => y
  end.

(** The store a successful [partial_fit] leaves behind. *)
Definition appended self (X : list doc) (y : option (list Z))
    (v : vocabulary CV) (tv : vocabulary TV) (inv : ndarray bool) (ids : list Z)
    (top : Z) (n : nat) (Xw : ndarray weight) : store CV TV :=
  Store (_match_fn self) (Some v) (Some tv)
    (Some (NDArray (n_cols inv) (rows inv ++ (v_row CV v <$> X))))
    (_fit_X self)
    (Some (ids ++ assigned top X y))
    (Some (n + length X))
    (Some (NDArray (n_cols Xw) (rows Xw ++ (v_row TV tv <$> X)))).

Lemma partial_fit_Ok (X : list doc) y self v tv inv ids top n Xw :
  _checkXy X y = Ok () → X ≠ [] →
  _cv self = Some v → vectorizer self = Some tv →
  _inv_X self = Some inv → n_cols inv = v_size CV v →
  (Z.of_nat (n_rows inv + length X) < 2 ^ 63)%Z →
  _y self = Some ids → np_amax ids = Ok top →
  n_docs self = Some n →
  _X self = Some Xw → n_cols Xw = v_size TV tv →
  (Z.of_nat (n_rows Xw + length X) < 2 ^ 63)%Z →
  partial_fit X y self = (appended self X y v tv inv ids top n Xw, Ok ()).
Proof.
  destruct self as [mf cv tvo invo fx yo no Xo]. cbn.
  intros Hc Hne -> -> -> Hcols Hrows -> Htop -> -> Hcols' Hrows'. method.
  rewrite Hc. cbn. unfold vstack, n_rows in *. cbn. rewrite !length_fmap.
  rewrite decide_True by done. rewrite decide_True by done. cbn.
  rewrite Htop. cbn. destruct X as [|d X]; [done|]. cbn.
  rewrite decide_True by done. rewrite length_fmap.
  by rewrite decide_True by done.
Qed.

Lemma partial_fit_Ok_inv (X : list doc) y self self' :
  partial_fit X y self = (self', Ok ()) →
  ∃ v tv inv ids top n Xw,
    _checkXy X y = Ok () ∧ X ≠ [] ∧
    _cv self = Some v ∧ vectorizer self = Some tv ∧
    _inv_X self = Some inv ∧ n_cols inv = v_size CV v ∧
    _y self = Some ids ∧ np_amax ids = Ok top ∧
    n_docs self = Some n ∧
    _X self = Some Xw ∧ n_cols Xw = v_size TV tv ∧
    self' = appended self X y v tv inv ids top n Xw.
Proof.
  destruct self as [mf cv tvo invo fx yo no Xo]. method.
  destruct (_checkXy X y) as [[]|] eqn:Hc; [|done]. cbn.
  destruct invo as [inv|]; [|done]. cbn.
  destruct cv as [v|]; [|done]. cbn. unfold vstack. cbn.
  destruct (decide (n_cols inv = v_size CV v)); [|done].
  destruct (decide _); [|done]. cbn.
  destruct yo as [ids|]; [|done]. cbn.
  destruct (np_amax ids) as [top|] eqn:Htop; [|done]. cbn.
  destruct no as [n|]; [|done]. cbn.
  destruct tvo as [tv|]; [|done]. cbn.
  destruct X as [|d X]; [done|].
  destruct Xo as [Xw|]; [|done]. cbn.
  destruct (decide (n_cols Xw = v_size TV tv)); [|done].
  destruct (decide _); [|done]. cbn.
  intros [= <-]. by exists v, tv, inv, ids, top, n, Xw.
Qed.

(** The store [_partial_fit] leaves behind when it returns. *)
Definition stacked self (X : list doc) (y : option (list Z))
    (v : vocabulary CV) (inv : ndarray bool) (ids : list Z)
    (top : Z) (n : nat) : store CV TV :=
  Store (_match_fn self) (Some v) (vectorizer self)
    (Some (NDArray (n_cols inv) (rows inv ++ (v_row CV v <$> X))))
    (_fit_X self)
    (Some (ids ++ assigned top X y))
    (Some (n + length X))
    (_X self).

(** [partial_fit] on a fitted object, path by path. *)
Lemma partial_fit_unfold (X : list doc) y self v tv inv ids top n Xw :
  _cv self = Some v → vectorizer self = Some tv →
  _inv_X self = Some inv → n_cols inv = v_size CV v →
  _y self = Some ids → np_amax ids = Ok top →
  n_docs self = Some n →
  _X self = Some Xw → n_cols Xw = v_size TV tv →
  partial_fit X y self =
  match _checkXy X y with
  | Raise e => (self, Raise e)
  | Ok _ =>
      if decide (Z.of_nat (n_rows inv + length X) < 2 ^ 63)%Z
      then
        match X with
        | [] => (stacked self X y v inv ids top n,
                 Raise (ValueError "Found array with 0 sample(s)"))
        | _ :: _ =>
            if decide (Z.of_nat (n_rows Xw + length X) < 2 ^ 63)%Z
            then (appended self X y v tv inv ids top n Xw, Ok ())
            else (stacked self X y v inv ids top n,
                  Raise (ValueError "Maximum allowed dimension exceeded"))
        end
      else (self, Raise (ValueError "Maximum allowed dimension exceeded"))
  end.
Proof.
  destruct self as [mf cv tvo invo fx yo no Xo]. cbn.
  intros -> -> -> Hcols -> Htop -> -> Hcols'. method.
  destruct (_checkXy X y) as [[]|]; cbn; [|done].
  unfold vstack, n_rows. cbn. rewrite length_fmap.
  rewrite decide_True by done.
  destruct (decide (Z.of_nat (length (rows inv) + length X) < 2 ^ 63)%Z); cbn; [|done].
  rewrite Htop. cbn. destruct X as [|d X]; [done|]. cbn.
  rewrite decide_True by done. rewrite length_fmap.
  by destruct (decide (Z.of_nat (length (rows Xw) + S (length X)) < 2 ^ 63)%Z).
Qed.

(** What a [partial_fit] that raises may have written: it only ever
    appends to the arrays it got to. *)
Definition grown {A} (old new : option (list A)) : Prop :=
  new = old ∨ ∃ l extra, old = Some l ∧ new = Some (l ++ extra).

Lemma grown_lookup {A} (old new : option (list A)) l i x :
  grown old new → old = Some l → l !! i = Some x →
  ∃ l', new = Some l' ∧ l' !! i = Some x.
Proof.
  intros [->|(l0 & extra & -> & ->)] Hl Hx; simplify_eq; [eauto|].
  eexists. split; [done|]. by apply lookup_app_l_Some.
Qed.

Lemma partial_fit_grown X y self :
  let self' := (partial_fit X y self).1 in
  grown (rows <$> _inv_X self) (rows <$> _inv_X self') ∧
  grown (rows <$> _X self) (rows <$> _X self') ∧
  grown (_y self) (_y self') ∧
  _fit_X self' = _fit_X self ∧ _match_fn self' = _match_fn self ∧
  _cv self' = _cv self ∧ vectorizer self' = vectorizer self ∧
  (n_cols <$> _inv_X self') = (n_cols <$> _inv_X self) ∧
  (n_cols <$> _X self') = (n_cols <$> _X self) ∧
  (is_Some (n_docs self) → is_Some (n_docs self')).
Proof.
  destruct self as [mf cv tvo invo fx yo no Xo]. method.
  assert (∀ A (o : option (list A)), grown o o) as Hrefl by (by left).
  destruct (_checkXy X y) as [[]|]; cbn; [|by split_and!].
  destruct invo as [inv|]; cbn; [|by split_and!].
  destruct cv as [v|]; cbn; [|by split_and!]. unfold vstack. cbn.
  destruct (decide (n_cols inv = v_size CV v)); cbn; [|by split_and!].
  destruct (decide _); cbn; [|by split_and!].
  assert (grown (Some (rows inv)) (Some (rows inv ++ (v_row CV v <$> X)))) as Hinv.
  { right. eauto. }
  destruct yo as [ids|]; cbn; [|by split_and!].
  destruct (np_amax ids) as [top|]; cbn; [|by split_and!].
  match goal with |- context [Some (ids ++ ?new)] =>
    assert (grown (Some ids) (Some (ids ++ new))) as Hids by (right; eauto) end.
  destruct no as [n|]; cbn; [|by split_and!].
  destruct tvo as [tv|]; cbn; [|by split_and!].
  destruct X as [|d X]; cbn; [by split_and!|].
  destruct Xo as [Xw|]; cbn; [|by split_and!].
  destruct (decide (n_cols Xw = v_size TV tv)); cbn; [|by split_and!].
  destruct (decide _); cbn; [|by split_and!].
  split_and!; try done. right. eauto.
Qed.

(** *** The invariant of the objects a program can build

    Either nothing was fitted yet, or all the attributes a fit assigns are
    there and each matrix has the width of its vocabulary. A call that
    raises half-way keeps this: [_fit] assigns only after the last step
    that can raise, and [partial_fit] replaces what is there. *)
Definition coherent self : Prop :=
  _match_fn self = Some TermMatch ∧ _fit_X self = None ∧
  ((_cv self = None ∧ vectorizer self = None ∧ _inv_X self = None ∧
    _y self = None ∧ n_docs self = None ∧ _X self = None) ∨
   ∃ v tv inv Xw ids n,
     _cv self = Some v ∧ vectorizer self = Some tv ∧
     _inv_X self = Some inv ∧ _X self = Some Xw ∧
     _y self = Some ids ∧ n_docs self = Some n ∧
     n_cols inv = v_size CV v ∧ n_cols Xw = v_size TV tv).

Lemma coherent_init : coherent (TfidfRetrieval CV TV).
Proof. split_and!; try done. left. by split_and!. Qed.

Lemma checkXy_Ok_length {B} (X : list doc) (y : list B) :
  _checkXy X (Some y) = Ok () → length y = length X.
Proof. cbn. destruct (decide (length X ≠ length y)); [done|]. lia. Qed.

Lemma fit_coherent X y self : coherent self → coherent (fit X y self).1.
Proof.
  intros (Hmf & Hfx & Hst). rewrite fit_unfold.
  destruct (_checkXy X y) as [[]|] eqn:Hc; cbn; [|done].
  destruct (decide (refused X)); cbn; [done|].
  split_and!; [done..|]. right. do 6 eexists. by split_and!.
Qed.

Lemma fit_Ok_aligned X y self : (fit X y self).2 = Ok () → aligned (fit X y self).1.
Proof.
  rewrite fit_unfold. destruct (_checkXy X y) as [[]|] eqn:Hc; cbn; [|done].
  destruct (decide (refused X)); cbn; [done|].
  intros _. do 4 eexists. split_and!; try done.
  - unfold n_rows. cbn. by rewrite length_fmap.
  - unfold n_rows. cbn. by rewrite length_fmap.
  - destruct y as [y|]; [by apply checkXy_Ok_length|].
    rewrite length_arange. lia.
Qed.

Lemma partial_fit_coherent X y self :
  coherent self → coherent (partial_fit X y self).1.
Proof.
  intros (Hmf & Hfx & Hst).
  pose proof (partial_fit_grown X y self) as Hg. cbn in Hg.
  destruct Hg as (Hinv & HX & Hy & Hfx' & Hmf' & Hcv & Htv & Hci & HcX & Hn).
  split_and!; [congruence..|].
  destruct Hst as [(Hcv0 & Htv0 & Hinv0 & Hy0 & Hn0 & HX0)|
                   (v & tv & inv & Xw & ids & n & Hcv0 & Htv0 & Hinv0 & HX0 & Hy0 & Hn0 &
                    Hcols & Hcols')].
  - left. rewrite Hcv, Htv, Hcv0, Htv0.
    rewrite Hinv0 in Hinv, Hci. rewrite HX0 in HX, HcX. rewrite Hy0 in Hy. cbn in *.
    assert (_inv_X (partial_fit X y self).1 = None) as Hinv'
      by (by destruct (_inv_X (partial_fit X y self).1)).
    assert (_X (partial_fit X y self).1 = None) as HX'
      by (by destruct (_X (partial_fit X y self).1)).
    assert (_y (partial_fit X y self).1 = None) as Hy'.
    { by destruct Hy as [->|(? & ? & ? & _)]. }
    split_and!; try done.
    revert Hn0. clear. destruct self as [mf cv tvo invo fx yo no Xo]. cbn. intros ->.
    method. destruct (_checkXy X y) as [[]|]; cbn; [|done].
    destruct invo; cbn; [|done]. destruct cv; cbn; [|done].
    destruct (vstack _ _); cbn; [|done]. destruct yo; cbn; [|done].
    by destruct (np_amax _).
  - right. rewrite Hcv, Htv. rewrite Hinv0 in Hci. rewrite HX0 in HcX.
    rewrite Hy0 in Hy. cbn in *.
    destruct (_inv_X (partial_fit X y self).1) as [inv'|]; [|done].
    destruct (_X (partial_fit X y self).1) as [Xw'|]; [|done].
    destruct (Hn (ex_intro _ n Hn0)) as [n' Hn'].
    assert (∃ ids', _y (partial_fit X y self).1 = Some ids') as [ids' Hy'].
    { destruct Hy as [->|(? & ? & _ & ->)]; eauto. }
    exists v, tv, inv', Xw', ids', n'. cbn in Hci, HcX. simplify_eq.
    split_and!; try done; congruence.
Qed.

Lemma exec_coherent c self : coherent self → coherent (exec c self).1.
Proof. destruct c; [apply fit_coherent | apply partial_fit_coherent]. Qed.

Lemma run_coherent history self : coherent self → coherent (run self history).
Proof.
  revert self. induction history as [|c history IH]; intros self Hs; [done|].
  cbn. by apply IH, exec_coherent.
Qed.

Lemma length_assigned (top : Z) (X : list doc) (y : option (list Z)) ids :
  _checkXy X y = Ok () → np_amax ids = Ok top →
  (y = None → no_id_overflow ids (length X)) →
  length (assigned top X y) = length X.
Proof.
  intros Hc Htop Hsafe. destruct y as [y|]; [by apply checkXy_Ok_length|].
  cbn. specialize (Hsafe eq_refl top Htop).
  pose proof (int64_wrap64 (top + 1)) as Hnext. unfold int64 in Hnext.
  rewrite (wrap64_int64 (wrap64 (top + 1) + Z.of_nat (length X)))
    by (unfold int64; lia).
  rewrite length_arange. lia.
Qed.

(** *** Histories within [int64] identifiers

    The identifier array is an [int64] array as long as every list of
    identifiers handed to [fit] or [partial_fit] is a non-empty list of
    [int64] values: [np.asarray] of such a list is an [int64] array, and
    [np.hstack] of two [int64] arrays is one. (An empty list is a
    [float64] array, and a value beyond [int64] gives another type.) The
    identifiers [fit] assigns are the positions, of fewer than [2^63]
    documents; where [partial_fit] assigns them, [next_id + len(X)] is to
    stay in range. *)
Definition int64_call self (c : call (doc := doc)) : Prop :=
  match c with
  | Fit X None => (Z.of_nat (length X) < 2 ^ 63)%Z
  | Fit _ (Some y) => y ≠ [] ∧ Forall int64 y
  | PartialFit _ (Some y) => y ≠ [] ∧ Forall int64 y
  | PartialFit X None => ∀ ids, _y self = Some ids → no_id_overflow ids (length X)
  end.

Fixpoint int64_history self (history : list (call (doc := doc))) : Prop :=
  match history with
  | [] => True
  | c :: history => int64_call self c ∧ int64_history (exec c self).1 history
  end.

Lemma int64_history_app self (history : list call) (c : call) :
  int64_history self (history ++ [c]) →
  int64_history self history ∧ int64_call (run self history) c.
Proof.
  revert self. induction history as [|c' history IH]; intros self; cbn.
  - tauto.
  - intros [Hc' Hrest]. destruct (IH _ Hrest). tauto.
Qed.

Lemma Forall_int64_assigned (top : Z) (X : list doc) (y : option (list Z)) :
  (∀ y', y = Some y' → Forall int64 y') → Forall int64 (assigned top X y).
Proof.
  intros Hy. destruct y as [y|]; [by apply Hy|].
  apply Forall_int64_arange; apply int64_wrap64.
Qed.

(** The identifier array after [partial_fit], whatever its outcome. *)
Lemma partial_fit_y X y self :
  _y (partial_fit X y self).1 = _y self ∨
  ∃ ids top, _y self = Some ids ∧ np_amax ids = Ok top ∧
             _y (partial_fit X y self).1 = Some (ids ++ assigned top X y).
Proof.
  destruct self as [mf cv tvo invo fx yo no Xo]. method.
  destruct (_checkXy X y) as [[]|]; cbn; [|by left].
  destruct invo as [inv|]; cbn; [|by left].
  destruct cv as [v|]; cbn; [|by left].
  destruct (vstack inv _); cbn; [|by left].
  destruct yo as [ids|]; cbn; [|by left].
  destruct (np_amax ids) as [top|] eqn:Htop; cbn; [|by left].
  destruct no as [n|]; cbn; [|by (right; exists ids, top)].
  destruct tvo as [tv|]; cbn; [|by (right; exists ids, top)].
  destruct X as [|d X]; cbn; [by (right; exists ids, top)|].
  destruct Xo as [Xw|]; cbn; [|by (right; exists ids, top)].
  destruct (vstack Xw _); cbn; by (right; exists ids, top).
Qed.

Lemma exec_int64 c self :
  int64_call self c →
  (∀ ids, _y self = Some ids → Forall int64 ids) →
  ∀ ids, _y (exec c self).1 = Some ids → Forall int64 ids.
Proof.
  intros Hc Hself ids. destruct c as [X y|X y]; cbn.
  - rewrite fit_unfold. destruct (_checkXy X y) as [[]|]; cbn; [|by apply Hself].
    destruct (decide (refused X)); cbn; [by apply Hself|]. intros [= <-].
    destruct y as [y|]; cbn in Hc; [by destruct Hc|].
    apply Forall_int64_arange; unfold int64; lia.
  - destruct (partial_fit_y X y self) as [->|(ids0 & top & Hy & _ & ->)];
      [by apply Hself|].
    intros [= <-]. apply Forall_app. split; [by apply Hself|].
    apply Forall_int64_assigned. intros y' ->. by destruct Hc.
Qed.

Lemma run_int64 history self :
  int64_history self history →
  (∀ ids, _y self = Some ids → Forall int64 ids) →
  ∀ ids, _y (run self history) = Some ids → Forall int64 ids.
Proof.
  revert self. induction history as [|c history IH]; intros self; [by auto|].
  cbn. intros [Hc Hrest] Hself. apply IH; [done|]. by apply exec_int64.
Qed.

(** Within such histories: either nothing was fitted, or the arrays are
    row-aligned and identifiers are stored. *)
Definition sound self : Prop :=
  coherent self ∧ (_y self = None ∨ (aligned self ∧ _y self ≠ Some [])).

Lemma sound_init : sound (TfidfRetrieval CV TV).
Proof. split; [apply coherent_init|by left]. Qed.

Lemma fit_sound X y self : sound self → sound (fit X y self).1.
Proof.
  intros [Hco Hal]. split; [by apply fit_coherent|].
  pose proof (fit_Ok_aligned X y self) as Haligned. revert Haligned.
  rewrite fit_unfold. destruct (_checkXy X y) as [[]|] eqn:Hc; cbn; [|done].
  destruct (decide (refused X)) as [|Hacc]; cbn; [done|].
  intros Haligned. right. split; [by apply Haligned|].
  assert (length X ≠ 0) as Hlen by (unfold refused in Hacc; tauto).
  intros [= Hy]. destruct y as [y|].
  - apply checkXy_Ok_length in Hc. subst y. cbn in Hc. lia.
  - apply (f_equal length) in Hy. rewrite length_arange in Hy. cbn in Hy. lia.
Qed.

Lemma partial_fit_sound X y self :
  sound self →
  (y = None → ∀ ids, _y self = Some ids → no_id_overflow ids (length X)) →
  sound (partial_fit X y self).1.
Proof.
  intros [Hco Hal] Hsafe. split; [by apply partial_fit_coherent|].
  destruct Hal as [Hy|[(inv & Xw & ids & n & Hinv & HX & Hy & Hn & Hri & HrX & Hlen) Hne]].
  { left. pose proof (partial_fit_grown X y self) as Hg. cbn in Hg.
    destruct Hg as (_ & _ & [->|(? & ? & ? & _)] & _); congruence. }
  right.
  destruct Hco as (_ & _ & [(_ & _ & _ & ? & _)|
                   (v & tv & inv' & Xw' & ids' & n' & Hcv & Htv & Hinv' & HX' & Hy' & Hn' &
                    Hcols & Hcols')]); [congruence|].
  assert (inv' = inv) as -> by congruence.
  assert (Xw' = Xw) as -> by congruence.
  assert (∃ top, np_amax ids = Ok top) as [top Htop].
  { destruct ids; [by rewrite Hy in Hne|]. cbn. eauto. }
  assert (_checkXy X y = Ok () → length (assigned top X y) = length X) as Hnew.
  { intros Hc. apply (length_assigned top X y ids); [done..|].
    intros ->. by apply Hsafe. }
  clear Hsafe.
  destruct self as [mf cv tvo invo fx yo no Xo]. cbn in *. simplify_eq.
  method. destruct (_checkXy X y) as [[]|] eqn:Hc; cbn.
  2:{ split; [|done]. by do 4 eexists. }
  specialize (Hnew eq_refl). unfold vstack, n_rows in *. cbn.
  rewrite decide_True by done. rewrite length_fmap.
  destruct (decide _) as [Hrows|]; cbn.
  2:{ split; [|done]. by do 4 eexists. }
  rewrite Htop. cbn. fold (assigned top X y).
  assert (Some (ids ++ assigned top X y) ≠ Some []) as Hne'.
  { intros [= Hnil]. by apply app_eq_nil in Hnil as [-> _]. }
  destruct X as [|d X]; cbn.
  - split; [|done]. do 4 eexists. split_and!; try done; unfold n_rows; cbn;
      rewrite ?length_app; cbn in *; lia.
  - rewrite decide_True by done. rewrite length_fmap.
    rewrite decide_True by (by rewrite HrX). cbn.
    split; [|done]. do 4 eexists. split_and!; try done; unfold n_rows; cbn;
      rewrite ?length_app; cbn in *; rewrite ?length_fmap; lia.
Qed.

Lemma exec_sound c self : sound self → int64_call self c → sound (exec c self).1.
Proof.
  destruct c as [X y|X y]; intros Hs Hc; [by apply fit_sound|].
  apply partial_fit_sound; [done|]. intros ->. apply Hc.
Qed.

Lemma run_sound history self :
  sound self → int64_history self history → sound (run self history).
Proof.
  revert self. induction history as [|c history IH]; intros self Hs; [done|].
  cbn. intros [Hc Hrest]. by apply IH; [apply exec_sound|].
Qed.

Lemma exec_Ok_fitted c self : (exec c self).2 = Ok () → is_Some (_y (exec c self).1).
Proof.
  destruct c as [X y|X y]; cbn.
  - rewrite fit_unfold. destruct (_checkXy X y) as [[]|]; cbn; [|done].
    destruct (decide (refused X)); cbn; [done|]. eauto.
  - destruct (partial_fit X y self) as [self' r] eqn:Hrun. cbn. intros ->.
    apply partial_fit_Ok_inv in Hrun as (? & ? & ? & ? & ? & ? & ? & Hrun).
    destruct Hrun as (_ & _ & _ & _ & _ & _ & _ & _ & _ & _ & _ & ->). cbn. eauto.
Qed.



Lemma assigned_consecutive (top : Z) (X : list doc) :
  int64 top → (top + 1 + Z.of_nat (length X) < 2 ^ 63)%Z →
  assigned top X None = (λ i, (top + 1 + Z.of_nat i)%Z) <$> seq 0 (length X).
Proof.
  unfold int64. intros Htop Hfit. cbn. destruct X as [|d X].
  - change (Z.of_nat (length (@nil doc))) with 0%Z.
    rewrite Z.add_0_r, (wrap64_int64 (wrap64 _)) by apply int64_wrap64.
    unfold arange. by rewrite Z.sub_diag.
  - cbn [length] in *. rewrite (wrap64_int64 (top + 1)) by (unfold int64; lia).
    rewrite wrap64_int64 by (unfold int64; lia). apply arange_consecutive.
Qed.

(** C6, amended. Take an object built by any history of calls within
    [int64] identifiers, whose identifier array [ids] has maximum [m], and
    a batch of [n] documents with [m + n < 2^63 - 1], the stacked boolean
    matrix staying below [2^63] rows. Then [_partial_fit] without
    identifiers returns, and after [partial_fit] without identifiers the
    identifier array is [ids] followed by [m+1, m+2, ..., m+n], in this
    order; every new identifier is at least [m+1], and [m+1] is among them
    when the batch is not empty, in which case [partial_fit] returns as
    well. *)
Theorem partial_fit_auto_ids (history : list call) (X : list doc)
    (ids : list Z) (m : Z) (inv : ndarray bool) :
  int64_history (TfidfRetrieval CV TV) history →
  let self := run (TfidfRetrieval CV TV) history in
  let new := (λ i, (m + 1 + Z.of_nat i)%Z) <$> seq 0 (length X) in
  _y self = Some ids →
  m ∈ ids → (∀ d, d ∈ ids → (d ≤ m)%Z) →
  (m + 1 + Z.of_nat (length X) < 2 ^ 63)%Z →
  _inv_X self = Some inv → (Z.of_nat (n_rows inv + length X) < 2 ^ 63)%Z →
  (_partial_fit X None self).2 = Ok () ∧
  _y (_partial_fit X None self).1 = Some (ids ++ new) ∧
  _y (partial_fit X None self).1 = Some (ids ++ new) ∧
  (∀ i, i < length X → (ids ++ new) !! (length ids + i) = Some (m + 1 + Z.of_nat i)%Z) ∧
  (∀ d, d ∈ new → (m + 1 ≤ d)%Z) ∧
  (X ≠ [] → (m + 1)%Z ∈ new) ∧
  (X ≠ [] → ∀ Xw, _X self = Some Xw →
            (Z.of_nat (n_rows Xw + length X) < 2 ^ 63)%Z →
            (partial_fit X None self).2 = Ok ()).
Proof.
  intros Hhist self new Hy Hin Hmax Hfit Hinv Hrows.
  assert (Forall int64 ids) as Hint by (by apply (run_int64 history _ Hhist)).
  assert (coherent self) as (_ & _ & Hst) by apply run_coherent, coherent_init.
  destruct Hst as [(_ & _ & _ & ? & _)|
                   (v & tv & inv' & Xw & ids' & n & Hcv & Htv & Hinv' & HX & Hy' & Hn &
                    Hcols & Hcols')]; [congruence|].
  assert (ids' = ids) as -> by congruence.
  assert (inv' = inv) as -> by congruence.
  assert (np_amax ids = Ok m) as Htop by (by apply np_amax_max).
  assert (int64 m) as Hm by (rewrite Forall_forall in Hint; auto).
  assert (assigned m X None = new) as Hnew by (by apply assigned_consecutive).
  assert ((_partial_fit X None self).2 = Ok () ∧
          _y (_partial_fit X None self).1 = Some (ids ++ new)) as [Hok Hyb].
  { clearbody self. destruct self as [mf cv tvo invo fx yo no Xo].
    cbn in *. simplify_eq. method. unfold vstack, n_rows in *. cbn.
    rewrite length_fmap. rewrite decide_True by done. rewrite decide_True by done.
    cbn. rewrite Htop. cbn. by rewrite <-Hnew. }
  split_and!; try done.
  - clear Hok Hyb. clearbody self. destruct self as [mf cv tvo invo fx yo no Xo].
    cbn in *. simplify_eq. method. unfold vstack, n_rows in *. cbn.
    rewrite length_fmap. rewrite decide_True by done. rewrite decide_True by done.
    cbn. rewrite Htop. cbn. rewrite <-Hnew. clear.
    destruct X as [|d X]; cbn; [done|].
    destruct (decide (n_cols Xw = v_size TV tv)); cbn; [|done].
    by destruct (decide _).
  - intros i Hi. rewrite lookup_app_r by lia.
    replace (length ids + i - length ids) with i by lia.
    unfold new. by rewrite list_lookup_fmap, lookup_seq_lt.
  - intros d (i & -> & _)%list_elem_of_fmap. lia.
  - intros HX'. apply list_elem_of_fmap. exists 0. split; [lia|].
    apply elem_of_seq. destruct X; [done|]. cbn. lia.
  - intros Hne Xw' HXw Hrows'. assert (Xw' = Xw) as -> by congruence.
    by rewrite (partial_fit_Ok X None self v tv inv ids m n Xw).
Qed.


Lemma TermMatch_total (X q : ndarray bool) :
  (∀ j, j ∈ (nonzero q).2 → j < n_cols X) → ∃ ind, TermMatch X q = Ok ind.
Proof.
  intros Hq. unfold TermMatch. rewrite np_take_rows_transpose by done.
  cbn. eauto.
Qed.

(** C10. No history of [fit] and [partial_fit] calls ever assigns
    [_fit_X]. Hence on a fitted object [_matching] with [return_indices]
    left at [False] raises [AttributeError] for [_fit_X], while with
    [return_indices=True] it returns row indices. *)
Theorem matching_default_raises (history : list call) (query : doc) :
  consistent CV →
  let self := run (TfidfRetrieval CV TV) history in
  _fit_X self = None ∧
  (is_Some (_inv_X self) →
   (_matching query false self).2 = Raise (AttributeError "_fit_X") ∧
   ∃ ind, (_matching query true self).2 = Ok (Indices ind)).
Proof.
  intros HCV self.
  assert (coherent self) as (Hmf & Hfx & Hst) by apply run_coherent, coherent_init.
  split; [done|]. intros [inv0 Hinv0].
  destruct Hst as [(_ & _ & ? & _)|
                   (v & tv & inv & Xw & ids & n & Hcv & Htv & Hinv & HX & Hy & Hn &
                    Hcols & _)]; [congruence|].
  destruct (TermMatch_total inv (v_transform CV v [query])) as [ind Hind].
  { intros j (i & r & x & Hr & Hx & _)%elem_of_nonzero_cols.
    cbn in Hr. destruct i; [|done]. cbn in Hr. simplify_eq.
    apply lookup_lt_Some in Hx. rewrite HCV in Hx. lia. }
  clearbody self. destruct self as [mf cv tvo invo fx yo no Xo].
  cbn in *. simplify_eq. method. rewrite Hind. cbn. eauto.
Qed.
End StoreFacts.

Arguments int64_call {doc weight CV TV} self c.
Arguments int64_history {doc weight CV TV} self history.

(** ** Queries *)

Section QueryFacts.
Context {doc weight : Type}.
Variable CV : Vectorizer doc bool.
Variable TV : Vectorizer doc weight.
Variable kneighbors : ndarray weight → ndarray weight → Z → result (list nat).
Implicit Types self : store CV TV.

Ltac method :=
  unfold query, _matching, on, pure, call_kneighbors,
    mbind, M_bind, Q_bind, mret, M_ret, Q_ret, lift, attr,
    cv_transform, tfidf_transform;
  cbn.

(** C3. Whenever [query] returns a sequence of identifiers, the matching
    step on the same text returned row indices [ind] (the result of the
    object's match function, [TermMatch] for a [TfidfRetrieval], on the
    boolean matrix and the boolean query vector), and every returned
    identifier is the identifier stored at one of those rows: ranking
    never adds a document that was not matched. *)
Theorem query_within_matches self (text : doc) (k : Z) (labels : list Z) :
  (query kneighbors self text k).2 = Ok labels →
  ∃ match_fn inv v ind ids,
    _match_fn self = Some match_fn ∧ _inv_X self = Some inv ∧
    _cv self = Some v ∧ _y self = Some ids ∧
    match_fn inv (v_transform CV v [text]) = Ok ind ∧
    (_match_fn self = Some TermMatch →
     TermMatch inv (v_transform CV v [text]) = Ok ind) ∧
    (_matching text true self).2 = Ok (Indices ind) ∧
    ∀ d, d ∈ labels → ∃ i, i ∈ ind ∧ ids !! i = Some d.
Proof.
  destruct self as [mf cv tvo invo fx yo no Xo]. method.
  destruct invo as [inv|]; cbn; [|done].
  destruct cv as [v|]; cbn; [|done].
  destruct mf as [match_fn|]; cbn.
  2:{ destruct fx; cbn; [|done]. by destruct yo. }
  destruct (match_fn inv (v_transform CV v [text])) as [ind|] eqn:Hind; cbn; [|done].
  destruct Xo as [Xw|]; cbn; [|done].
  destruct (np_take_rows Xw ind) as [Xm|]; cbn; [|done].
  destruct yo as [ids|]; cbn; [|done].
  destruct (np_take ids ind) as [matched_doc_ids|] eqn:Hmatched; cbn; [|done].
  destruct (decide (Z.of_nat (length ind) `min` k = 0)%Z); cbn.
  { intros [= <-]. exists match_fn, inv, v, ind, ids.
    split_and!; try done; [by intros [= ->]|by intros d ?%elem_of_nil]. }
  destruct tvo as [tv|]; cbn; [|done].
  destruct (kneighbors Xm (v_transform TV tv [text]) _) as [nn_ind|]; cbn; [|done].
  destruct (np_take matched_doc_ids nn_ind) as [labels'|] eqn:Hlabels; cbn; [|done].
  intros [= <-]. exists match_fn, inv, v, ind, ids.
  split_and!; try done; [by intros [= ->]|].
  intros d Hd.
  destruct (np_take_Ok_elem _ _ _ _ Hlabels Hd) as (p & _ & Hp).
  apply list_elem_of_lookup_2 in Hp.
  destruct (np_take_Ok_elem _ _ _ _ Hmatched Hp) as (i & Hi & Hid). eauto.
Qed.

(** When the number to retrieve is not zero, the nearest-neighbour search
    is called, once, on the restricted matrix. *)
Lemma query_reaches_kneighbors self (text : doc) (k : Z)
    match_fn inv v tv Xw ids ind Xm matched_doc_ids :
  _match_fn self = Some match_fn → _inv_X self = Some inv →
  _cv self = Some v → vectorizer self = Some tv →
  _X self = Some Xw → _y self = Some ids →
  match_fn inv (v_transform CV v [text]) = Ok ind →
  np_take_rows Xw ind = Ok Xm → np_take ids ind = Ok matched_doc_ids →
  (Z.of_nat (length ind) `min` k ≠ 0)%Z →
  (query kneighbors self text k).1 =
  [NNCall Xm (v_transform TV tv [text]) (Z.of_nat (length ind) `min` k)].
Proof.
  destruct self as [mf cv tvo invo fx yo no Xo]. cbn.
  intros -> -> -> -> -> -> Hind HXm Hids Hret. method.
  rewrite Hind. cbn. rewrite HXm. cbn. rewrite Hids. cbn.
  rewrite decide_False by done. cbn.
  destruct (kneighbors Xm _ _) as [nn_ind|]; [|done]. cbn.
  by destruct (np_take matched_doc_ids nn_ind).
Qed.

End QueryFacts.

(** ** Evaluation *)

Lemma relevance_flat (m : gmap (Z * Z) Z) (qid : Z) (docids : list Z) :
  relevance (FlatDict m) qid docids =
  Ok ((λ docid, default 0%Z (m !! (qid, docid))) <$> docids).
Proof.
  unfold relevance.
  rewrite (comprehension_total _ (λ docid, default 0%Z (m !! (qid, docid)))); [done|].
  intros docid _. cbn. by destruct (m !! (qid, docid)).
Qed.

Section EvaluateFacts.
Context {doc weight : Type}.
Variable CV : Vectorizer doc bool.
Variable TV : Vectorizer doc weight.
Variable kneighbors : ndarray weight → ndarray weight → Z → result (list nat).
Variable rm : RankMetrics.
Implicit Types self : store CV TV.

(** The keys of the returned mapping: the requested names that are valid
    metrics. *)
Lemma evaluate_dom self X Y k (metrics : list string) log values (name : string) :
  evaluate kneighbors rm self X Y k metrics = (log, Ok values) →
  name ∈ dom values ↔ name ∈ metrics ∧ name ∈ VALID_METRICS.
Proof.
  unfold evaluate, mbind, Q_bind, mret, Q_ret.
  destruct (evaluate_rs kneighbors self X Y k) as [log' [rs|]]; [|done].
  intros [= _ <-]. unfold VALID_METRICS.
  repeat case_decide; rewrite ?dom_insert, ?dom_empty;
    set_unfold; intuition (subst; tauto).
Qed.

(** C8. When every requested metric name is one of [VALID_METRICS] and the
    query loop completes, [evaluate] returns a mapping whose keys are
    exactly the requested names: each requested name is a key, and each
    key is a requested name. *)
Theorem evaluate_keys self X Y k (metrics : list string) log rs :
  (∀ name, name ∈ metrics → name ∈ VALID_METRICS) →
  evaluate_rs kneighbors self X Y k = (log, Ok rs) →
  ∃ values,
    evaluate kneighbors rm self X Y k metrics = (log, Ok values) ∧
    ∀ name : string, name ∈ dom values ↔ name ∈ metrics.
Proof.
  intros Hvalid Hrs.
  destruct (evaluate kneighbors rm self X Y k metrics) as [log' r] eqn:Hev.
  assert (log' = log ∧ ∃ values, r = Ok values) as [-> [values ->]].
  { revert Hev. unfold evaluate, mbind, Q_bind, mret, Q_ret. rewrite Hrs.
    intros [= <- <-]. rewrite app_nil_r. eauto. }
  exists values. split; [done|]. intros name.
  rewrite (evaluate_dom _ _ _ _ _ _ _ _ Hev). split; [by intros [? _]|auto].
Qed.
End EvaluateFacts.

(** ** The claims on the executable instance *)

Lemma toy_cv_consistent : consistent Toy.CV.
Proof. intros v d. cbn. by rewrite length_fmap. Qed.

Definition toy_history : list (call (doc := Toy.doc)) :=
  [Fit Toy.docs None; PartialFit [["unpaired"]] (Some [7; 8]%Z)].

Definition toy_batch : list Toy.doc := [["new"; "fox"; "doc"]].

Lemma toy_history_int64 (X : list Toy.doc) :
  int64_history (TfidfRetrieval Toy.CV Toy.TV) (toy_history ++ [PartialFit X None]) →
  int64_history (TfidfRetrieval Toy.CV Toy.TV) toy_history.
Proof. by intros [? _]%int64_history_app. Qed.

Lemma toy_no_id_overflow (ids : list Z) (top : Z) (n : nat) :
  np_amax ids = Ok top → int64 top → (top + 1 + Z.of_nat n < 2 ^ 63)%Z →
  no_id_overflow ids n.
Proof.
  unfold int64. intros Htop Hint Hfit top' Htop'.
  assert (top' = top) as -> by congruence.
  rewrite wrap64_int64 by (unfold int64; lia). lia.
Qed.

Lemma toy_history_batch_int64 :
  int64_history (TfidfRetrieval Toy.CV Toy.TV) (toy_history ++ [PartialFit toy_batch None]).
Proof.
  cbn [toy_history app int64_history int64_call]. split_and!; try done.
  - repeat constructor; unfold int64; lia.
  - intros ids Hy. vm_compute in Hy. injection Hy as <-.
    apply (toy_no_id_overflow _ 3); [done|unfold int64; lia|cbn; lia].
Qed.


Definition toy_top_ids : list Z := [0; 1; 2; 2 ^ 63 - 2]%Z.

Definition toy_pair : list Toy.doc := [["new"; "fox"; "doc"]; ["lazy"; "cat"]].




Lemma partial_fit_auto_ids_witness :
  let self := run (TfidfRetrieval Toy.CV Toy.TV) toy_history in
  let ids := [0; 1; 2; 3]%Z in
  let inv := v_transform Toy.CV (v_fit Toy.CV Toy.docs) Toy.docs in
  let new := (λ i, (3 + 1 + Z.of_nat i)%Z) <$> seq 0 (length toy_batch) in
  (int64_history (TfidfRetrieval Toy.CV Toy.TV) toy_history ∧
   _y self = Some ids ∧ 3%Z ∈ ids ∧ (∀ d, d ∈ ids → (d ≤ 3)%Z) ∧
   (3 + 1 + Z.of_nat (length toy_batch) < 2 ^ 63)%Z ∧
   _inv_X self = Some inv ∧
   (Z.of_nat (n_rows inv + length toy_batch) < 2 ^ 63)%Z) ∧
  (_partial_fit toy_batch None self).2 = Ok () ∧
  _y (_partial_fit toy_batch None self).1 = Some (ids ++ new) ∧
  _y (partial_fit toy_batch None self).1 = Some (ids ++ new) ∧
  (∀ i, i < length toy_batch →
        (ids ++ new) !! (length ids + i) = Some (3 + 1 + Z.of_nat i)%Z) ∧
  (∀ d, d ∈ new → (3 + 1 ≤ d)%Z) ∧
  (toy_batch ≠ [] → (3 + 1)%Z ∈ new) ∧
  (toy_batch ≠ [] → ∀ Xw, _X self = Some Xw →
     (Z.of_nat (n_rows Xw + length toy_batch) < 2 ^ 63)%Z →
     (partial_fit toy_batch None self).2 = Ok ()).
Proof.
  assert (∀ d : Z, d ∈ [0; 1; 2; 3]%Z → (d ≤ 3)%Z) as Hmax.
  { intros d Hd. repeat (apply elem_of_cons in Hd as [->|Hd]; [lia|]).
    by apply elem_of_nil in Hd. }
  assert (3%Z ∈ [0; 1; 2; 3]%Z) as Hin by (do 3 right; left).
  assert (int64_history (TfidfRetrieval Toy.CV Toy.TV) toy_history) as Hhist
    by apply (toy_history_int64 toy_batch), toy_history_batch_int64.
  split; [split_and!; try done; try (by vm_compute); cbn; lia|].
  apply (partial_fit_auto_ids Toy.CV Toy.TV toy_history toy_batch [0; 1; 2; 3]%Z 3
           (v_transform Toy.CV (v_fit Toy.CV Toy.docs) Toy.docs));
    try done; try (by vm_compute); cbn; lia.
Defined.

(** C6, as stated, fails at the top of the [int64] range: with the
    identifiers [0, 1, 2, 2^63 - 1] the maximum is [m = 2^63 - 1],
    [np.amax(self._y) + 1] wraps, and the document that [partial_fit] adds
    gets the identifier [-2^63], not [m + 1]. *)
Lemma partial_fit_auto_ids_wrap :
  let m := (2 ^ 63 - 1)%Z in
  let self := (fit Toy.docs (Some [0; 1; 2; m]%Z) (TfidfRetrieval Toy.CV Toy.TV)).1 in
  _y self = Some [0; 1; 2; m]%Z ∧ np_amax [0; 1; 2; m]%Z = Ok m ∧
  (partial_fit toy_batch None self).2 = Ok () ∧
  _y (partial_fit toy_batch None self).1 = Some [0; 1; 2; m; - 2 ^ 63]%Z ∧
  (- 2 ^ 63)%Z ≠ (m + 1)%Z.
Proof. by vm_compute. Qed.


Lemma matching_default_raises_witness :
  let self := run (TfidfRetrieval Toy.CV Toy.TV) toy_history in
  consistent Toy.CV ∧ is_Some (_inv_X self) ∧
  _fit_X self = None ∧
  (is_Some (_inv_X self) →
   (_matching ["fox"] false self).2 = Raise (AttributeError "_fit_X") ∧
   ∃ ind, (_matching ["fox"] true self).2 = Ok (Indices ind)).
Proof.
  split; [apply toy_cv_consistent|]. split; [eexists; by vm_compute|].
  apply (matching_default_raises Toy.CV Toy.TV toy_history ["fox"] toy_cv_consistent).
Defined.

Lemma query_within_matches_witness :
  (query Toy.kneighbors Toy.extended ["new"; "fox"; "doc"] 2).2 = Ok [4; 1]%Z ∧
  ∃ match_fn inv v ind ids,
    _match_fn Toy.extended = Some match_fn ∧ _inv_X Toy.extended = Some inv ∧
    _cv Toy.extended = Some v ∧ _y Toy.extended = Some ids ∧
    match_fn inv (v_transform Toy.CV v [["new"; "fox"; "doc"]]) = Ok ind ∧
    (_match_fn Toy.extended = Some TermMatch →
     TermMatch inv (v_transform Toy.CV v [["new"; "fox"; "doc"]]) = Ok ind) ∧
    (_matching ["new"; "fox"; "doc"] true Toy.extended).2 = Ok (Indices ind) ∧
    ∀ d, d ∈ [4; 1]%Z → ∃ i, i ∈ ind ∧ ids !! i = Some d.
Proof.
  split; [by vm_compute|].
  apply (query_within_matches Toy.CV Toy.TV Toy.kneighbors Toy.extended
           ["new"; "fox"; "doc"] 2 [4; 1]%Z).
  by vm_compute.
Defined.



Definition toy_queries : list (Z * Toy.doc) := [(0%Z, ["fox"]); (1%Z, ["dog"])].

Definition toy_flat : judgments :=
  FlatDict {[ (0%Z, 1%Z) := 1%Z; (1%Z, 3%Z) := 1%Z ]}.

Lemma evaluate_keys_witness :
  let metrics := ["mean_reciprocal_rank"; "average_ndcg_at_k"] in
  let log := (evaluate_rs Toy.kneighbors Toy.fitted toy_queries toy_flat 20).1 in
  ((∀ name, name ∈ metrics → name ∈ VALID_METRICS) ∧
   evaluate_rs Toy.kneighbors Toy.fitted toy_queries toy_flat 20 = (log, Ok [[1]; [1]]%Z)) ∧
  ∃ values,
    evaluate Toy.kneighbors Toy.rm Toy.fitted toy_queries toy_flat 20 metrics
    = (log, Ok values) ∧
    ∀ name : string, name ∈ dom values ↔ name ∈ metrics.
Proof.
  assert (∀ name : string,
             name ∈ ["mean_reciprocal_rank"; "average_ndcg_at_k"] →
             name ∈ VALID_METRICS) as Hvalid.
  { intros name Hname. unfold VALID_METRICS.
    apply elem_of_cons in Hname as [->|Hname]; [left|].
    apply elem_of_cons in Hname as [->|Hname]; [do 2 right; left|].
    by apply elem_of_nil in Hname. }
  split; [split; [done|by vm_compute]|].
  apply (evaluate_keys Toy.CV Toy.TV Toy.kneighbors Toy.rm Toy.fitted toy_queries
           toy_flat 20 _ _ [[1]; [1]]%Z Hvalid).
  by vm_compute.
Defined.

(** C4, the code at a failing input. The fitted toy collection returns
    document 1 for "fox". With a list of per-query dicts that has no entry
    for document 1, [evaluate] raises [KeyError] instead of counting
    relevance 0; a dense array that is too short raises [IndexError]. The
    pair-keyed dict does default to 0 on the same query. A dict of dicts
    has a [get] method, so the pair lookup answers 0 for every document,
    also for one that is judged relevant. *)
Theorem evaluate_nested_missing_raises :
  (query Toy.kneighbors Toy.fitted ["fox"] 20).2 = Ok [1%Z] ∧
  (evaluate Toy.kneighbors Toy.rm Toy.fitted [(0%Z, ["fox"])]
     (ListOfDicts [ {[ 0%Z := 0%Z ]} ]) 20 VALID_METRICS).2 = Raise KeyError ∧
  (evaluate_rs Toy.kneighbors Toy.fitted [(0%Z, ["fox"])]
     (DenseArray [[0%Z]]) 20).2 = Raise IndexError ∧
  (evaluate_rs Toy.kneighbors Toy.fitted [(0%Z, ["fox"])]
     (FlatDict {[ (0%Z, 0%Z) := 0%Z ]}) 20).2 = Ok [[0%Z]] ∧
  (evaluate_rs Toy.kneighbors Toy.fitted [(0%Z, ["fox"])]
     (DictOfDicts {[ 0%Z := {[ 1%Z := 1%Z ]} ]}) 20).2 = Ok [[0%Z]].
Proof. by vm_compute. Qed.

(** * Further properties of the code *)

(** ** TermMatch beyond well-shaped inputs *)

Lemma comprehension_raise {A B} (f : A → result B) (e : exn) (l : list A) :
  (∀ x, x ∈ l → (∃ y, f x = Ok y) ∨ f x = Raise e) →
  (∃ x, x ∈ l ∧ f x = Raise e) → comprehension f l = Raise e.
Proof.
  induction l as [|x l IH]; intros Hall (z & Hz & Hfz).
  { by apply elem_of_nil in Hz. }
  cbn. destruct (Hall x) as [[y Hy]|Hx]; [left| |by rewrite Hx].
  rewrite Hy. cbn. rewrite IH; [done| |].
  - intros x' Hx'. apply Hall. by right.
  - apply elem_of_cons in Hz as [->|Hz]; [congruence|eauto].
Qed.

Lemma comprehension_Ok_length {A B} (f : A → result B) l ys :
  comprehension f l = Ok ys → length ys = length l.
Proof.
  revert ys. induction l as [|x l IH]; intros ys; cbn.
  - by intros [= <-].
  - destruct (f x); [|done]. cbn. destruct (comprehension f l); [|done]. cbn.
    intros [= <-]. cbn. f_equal. by apply IH.
Qed.

Lemma np_take_rows_out_of_range {A} (a : ndarray A) (idx : list nat) :
  (∃ i, i ∈ idx ∧ n_rows a ≤ i) → np_take_rows a idx = Raise IndexError.
Proof.
  intros (i & Hi & Hge). unfold np_take_rows.
  rewrite (comprehension_raise _ IndexError); [done| |].
  - intros j _. destruct (rows a !! j); eauto.
  - exists i. split; [done|]. by rewrite lookup_ge_None_2.
Qed.

Lemma np_take_rows_Ok_rows {A} (a b : ndarray A) (idx : list nat) r :
  np_take_rows a idx = Ok b → r ∈ rows b → r ∈ rows a.
Proof.
  unfold np_take_rows.
  destruct (comprehension _ idx) as [rs|] eqn:Hrs; [|done]. cbn.
  intros [= <-] [p Hp]%list_elem_of_lookup. cbn in Hp.
  destruct (comprehension_Ok_lookup _ _ _ _ _ Hrs Hp) as (i & _ & Hi).
  destruct (rows a !! i) eqn:Hrow; simplify_eq. by eapply list_elem_of_lookup_2.
Qed.

Lemma TermMatch_Ok_bound {A} `{Inhabited A, Nonzero A} (X q : ndarray A) ind i :
  TermMatch X q = Ok ind → i ∈ ind → i < n_rows X.
Proof.
  unfold TermMatch.
  destruct (np_take_rows (transpose X) (nonzero q).2) as [mt|] eqn:Hmt; [|done].
  cbn. intros [= <-] Hi.
  apply elem_of_np_unique, elem_of_nonzero_cols in Hi as (t & r & x & Hr & Hx & _).
  apply list_elem_of_lookup_2 in Hr.
  apply (np_take_rows_Ok_rows _ _ _ _ Hmt) in Hr.
  unfold transpose in Hr. cbn in Hr.
  apply list_elem_of_fmap in Hr as (j & -> & _).
  apply lookup_lt_Some in Hx. by rewrite length_fmap in Hx.
Qed.

(** X1. Whatever the shapes of [X] and [q], when [TermMatch] returns, the
    indices it returns are strictly increasing and each one is the index of
    a row of [X]. *)
Theorem TermMatch_increasing_in_range {A} `{Inhabited A, Nonzero A}
    (X q : ndarray A) (ind : list nat) :
  TermMatch X q = Ok ind →
  StronglySorted (<) ind ∧ ∀ i, i ∈ ind → i < n_rows X.
Proof.
  intros Hind. split; [|intros i Hi; by eapply TermMatch_Ok_bound].
  revert Hind. unfold TermMatch.
  destruct (np_take_rows _ _); [|done]. cbn. intros [= <-].
  apply np_unique_increasing.
Qed.

Lemma TermMatch_increasing_in_range_witness :
  TermMatch fixture_X (NDArray 2 [[0; 1]; [1; 0]]%Z) = Ok [1; 2; 3; 4; 5] ∧
  StronglySorted (<) [1; 2; 3; 4; 5] ∧
  ∀ i, i ∈ [1; 2; 3; 4; 5] → i < n_rows fixture_X.
Proof.
  split; [by vm_compute|].
  apply (TermMatch_increasing_in_range fixture_X (NDArray 2 [[0; 1]; [1; 0]]%Z)).
  by vm_compute.
Defined.

(** X2. [TermMatch] returns exactly when every non-zero entry of [q] sits
    in a column that [X] has; a non-zero entry of [q] at a column past the
    last column of [X] makes it raise [IndexError]. *)
Theorem TermMatch_returns_iff {A} `{Inhabited A, Nonzero A} (X q : ndarray A) :
  ((∃ ind, TermMatch X q = Ok ind) ↔
   ∀ i r j x, rows q !! i = Some r → r !! j = Some x → is_nonzero x = true →
              j < n_cols X) ∧
  ((∃ i r j x, rows q !! i = Some r ∧ r !! j = Some x ∧ is_nonzero x = true ∧
               n_cols X ≤ j) →
   TermMatch X q = Raise IndexError).
Proof.
  assert ((∃ i r j x, rows q !! i = Some r ∧ r !! j = Some x ∧
                      is_nonzero x = true ∧ n_cols X ≤ j) →
          TermMatch X q = Raise IndexError) as Hraise.
  { intros (i & r & j & x & Hr & Hx & Hnz & Hge). unfold TermMatch.
    rewrite np_take_rows_out_of_range; [done|]. exists j. split.
    - apply elem_of_nonzero_cols. by exists i, r, x.
    - unfold n_rows, transpose. cbn. by rewrite length_fmap, length_seq. }
  split; [|done]. split.
  - intros [ind Hind] i r j x Hr Hx Hnz.
    destruct (decide (j < n_cols X)) as [|Hge]; [done|].
    rewrite Hraise in Hind; [done|]. exists i, r, j, x. split_and!; try done. lia.
  - intros Hq. unfold TermMatch. rewrite np_take_rows_transpose; [cbn; eauto|].
    intros j (i & r & x & Hr & Hx & Hnz)%elem_of_nonzero_cols. eauto.
Qed.

Lemma TermMatch_returns_iff_witness :
  (∃ i r j x, rows (NDArray 4 [[0; 0; 0; 1]%Z]) !! i = Some r ∧ r !! j = Some x ∧
              is_nonzero x = true ∧ n_cols fixture_X ≤ j) ∧
  TermMatch fixture_X (NDArray 4 [[0; 0; 0; 1]%Z]) = Raise IndexError.
Proof.
  assert (∃ i r j x, rows (NDArray 4 [[0; 0; 0; 1]%Z]) !! i = Some r ∧
                     r !! j = Some x ∧ is_nonzero x = true ∧
                     n_cols fixture_X ≤ j) as Hq.
  { exists 0, [0; 0; 0; 1]%Z, 3, 1%Z. split_and!; try done; cbn; lia. }
  split; [done|].
  by apply (TermMatch_returns_iff fixture_X (NDArray 4 [[0; 0; 0; 1]%Z])).
Defined.

(** X3. Matching is monotone in the query: for a well-shaped matrix and two
    well-shaped one-row queries of its width, if every term of [q] is also
    a term of [q'], then every row matched by [q] is matched by [q']. *)
Theorem TermMatch_monotone {A} `{Inhabited A, Nonzero A}
    (X q q' : ndarray A) (qrow qrow' : list A) (ind ind' : list nat) :
  well_shaped X →
  rows q = [qrow] → length qrow = n_cols X → n_cols q = n_cols X →
  rows q' = [qrow'] → length qrow' = n_cols X → n_cols q' = n_cols X →
  (∀ j x, qrow !! j = Some x → is_nonzero x = true →
          ∃ x', qrow' !! j = Some x' ∧ is_nonzero x' = true) →
  TermMatch X q = Ok ind → TermMatch X q' = Ok ind' →
  ∀ i, i ∈ ind → i ∈ ind'.
Proof.
  intros HX Hq Hlen Hcols Hq' Hlen' Hcols' Hsub.
  rewrite !TermMatch_overlapping_rows; try done;
    try (unfold n_rows; by rewrite ?Hq, ?Hq');
    try (unfold well_shaped; rewrite ?Hq, ?Hq'; apply Forall_singleton; congruence).
  intros [= <-] [= <-] i. unfold overlapping_rows.
  rewrite !list_elem_of_filter, Hq, Hq'. cbn. intros [Hov Hi]. split; [|done].
  destruct (rows X !! i) as [row|]; [|done].
  apply overlaps_spec in Hov as (j & x & y & Hx & Hy & Hnx & Hny).
  destruct (Hsub j y Hy Hny) as (y' & Hy' & Hny').
  apply overlaps_spec. by exists j, x, y'.
Qed.

Lemma TermMatch_monotone_witness :
  TermMatch fixture_X (NDArray 3 [[0; 0; 1]%Z]) = Ok [0; 2; 4] ∧
  TermMatch fixture_X (NDArray 3 [[0; 1; 1]%Z]) = Ok [0; 1; 2; 4; 5] ∧
  ∀ i, i ∈ [0; 2; 4] → i ∈ [0; 1; 2; 4; 5].
Proof.
  split; [by vm_compute|]. split; [by vm_compute|].
  apply (TermMatch_monotone fixture_X (NDArray 3 [[0; 0; 1]%Z]) (NDArray 3 [[0; 1; 1]%Z])
           [0; 0; 1]%Z [0; 1; 1]%Z).
  - apply fixture_X_well_shaped.
  - reflexivity.
  - reflexivity.
  - reflexivity.
  - reflexivity.
  - reflexivity.
  - reflexivity.
  - intros j x Hx Hnz.
    destruct j as [|[|[|j]]]; cbn in Hx; simplify_eq;
      try (by vm_compute in Hnz); by exists 1%Z.
  - by vm_compute.
  - by vm_compute.
Defined.

(** ** The index as an encoding of the documents *)

Section Encoding.
Context {doc weight : Type}.
Variable CV : Vectorizer doc bool.
Variable TV : Vectorizer doc weight.
Implicit Types self : store CV TV.

Ltac method :=
  unfold fit, partial_fit, _fit, _partial_fit, _matching,
    mbind, M_bind, mret, M_ret, lift, attr, cv_transform, tfidf_transform,
    set__cv, set_vectorizer, set__inv_X, set__y, set_n_docs, set__X;
  cbn.

(** The object holds the index of the documents [docs], in this order,
    under the vocabularies [v] and [tv]: both matrices are the encodings of
    [docs], and there is one identifier per document. *)
Definition indexes self (v : vocabulary CV) (tv : vocabulary TV)
    (docs : list doc) : Prop :=
  ∃ ids,
    _cv self = Some v ∧ vectorizer self = Some tv ∧
    _inv_X self = Some (v_transform CV v docs) ∧
    _X self = Some (v_transform TV tv docs) ∧
    _y self = Some ids ∧ n_docs self = Some (length docs) ∧
    length ids = length docs.

Lemma v_transform_stack {A} (V : Vectorizer doc A) (v : vocabulary V) docs X :
  NDArray (v_size V v) ((v_row V v <$> docs) ++ (v_row V v <$> X))
  = v_transform V v (docs ++ X).
Proof. unfold v_transform. cbn. by rewrite fmap_app. Qed.

Lemma fit_accepted X y self :
  _checkXy X y = Ok () → X ≠ [] → v_size CV (v_fit CV X) ≠ 0 →
  fit X y self =
  (Store (_match_fn self) (Some (v_fit CV X)) (Some (v_fit TV X))
     (Some (v_transform CV (v_fit CV X) X)) (_fit_X self)
     (Some (match y with
            | None => arange 0 (Z.of_nat (length X))
            | Some y => y
            end))
     (Some (length X)) (Some (v_transform TV (v_fit TV X) X)), Ok ()).
Proof.
  intros Hc Hne Hvoc. rewrite fit_unfold, Hc.
  rewrite decide_False; [done|]. unfold refused. destruct X; [done|]. cbn. lia.
Qed.

Lemma fit_indexes X y self :
  _checkXy X y = Ok () → X ≠ [] → v_size CV (v_fit CV X) ≠ 0 →
  (fit X y self).2 = Ok () ∧ indexes (fit X y self).1 (v_fit CV X) (v_fit TV X) X.
Proof.
  intros Hc Hne Hvoc. rewrite fit_accepted by done. cbn. split; [done|].
  eexists. split_and!; try done. cbn.
  destruct y as [y|]; [by apply checkXy_Ok_length|]. rewrite length_arange. lia.
Qed.

Lemma indexes_amax self v tv docs ids :
  indexes self v tv docs → docs ≠ [] → _y self = Some ids →
  ∃ top, np_amax ids = Ok top.
Proof.
  intros (ids' & _ & _ & _ & _ & Hy & _ & Hlen) Hne Hy'.
  assert (ids' = ids) as -> by congruence.
  destruct ids as [|d ids]; [|cbn; eauto]. by destruct docs.
Qed.

Lemma partial_fit_indexes X y self v tv docs :
  indexes self v tv docs → docs ≠ [] → X ≠ [] → _checkXy X y = Ok () →
  (Z.of_nat (length docs + length X) < 2 ^ 63)%Z →
  (y = None → ∀ ids, _y self = Some ids → no_id_overflow ids (length X)) →
  (partial_fit X y self).2 = Ok () ∧
  indexes (partial_fit X y self).1 v tv (docs ++ X).
Proof.
  intros Hidx Hne HX Hc Hrows Hsafe.
  pose proof Hidx as (ids & Hcv & Htv & Hinv & HXw & Hy & Hn & Hlen).
  destruct (indexes_amax _ _ _ _ _ Hidx Hne Hy) as [top Htop].
  rewrite (partial_fit_Ok CV TV X y self v tv _ ids top _ _ Hc HX Hcv Htv Hinv
             eq_refl) by (try done; unfold n_rows; cbn; by rewrite length_fmap).
  cbn. split; [done|]. eexists. unfold appended. cbn.
  rewrite !v_transform_stack. split_and!; try done.
  - by rewrite length_app.
  - rewrite !length_app, (length_assigned top X y ids); [lia|done..|].
    intros ->. by apply Hsafe.
Qed.


Lemma exec_frame c self :
  _match_fn (exec c self).1 = _match_fn self ∧ _fit_X (exec c self).1 = _fit_X self.
Proof.
  destruct c as [X y|X y]; cbn.
  - rewrite fit_unfold. destruct (_checkXy X y); [|done].
    by destruct (decide (refused CV X)).
  - pose proof (partial_fit_grown CV TV X y self) as Hg. cbn in Hg.
    by destruct Hg as (_ & _ & _ & -> & -> & _).
Qed.

Lemma run_frame history self :
  _match_fn (run self history) = _match_fn self ∧
  _fit_X (run self history) = _fit_X self.
Proof.
  revert self. induction history as [|c history IH]; intros self; [done|].
  change (run self (c :: history)) with (run (exec c self).1 history).
  destruct (IH (exec c self).1) as [-> ->]. apply exec_frame.
Qed.


(** X6. Before any [fit], [partial_fit] with arguments that pass the length
    check raises [AttributeError] for [_inv_X] and leaves the object as it
    was. *)
Theorem partial_fit_before_fit (X : list doc) y self :
  _inv_X self = None → _checkXy X y = Ok () →
  partial_fit X y self = (self, Raise (AttributeError "_inv_X")).
Proof.
  destruct self as [mf cv tvo invo fx yo no Xo]. cbn. intros -> Hc.
  method. by rewrite Hc.
Qed.

Lemma np_amax_append (ids : list Z) (top : Z) (n : nat) :
  np_amax ids = Ok top →
  np_amax (ids ++ arange (top + 1) (top + 1 + Z.of_nat n)) = Ok (top + Z.of_nat n)%Z.
Proof.
  intros [Hin Hmax]%np_amax_Ok. apply np_amax_max.
  - apply elem_of_app. destruct n as [|n].
    + left. by replace (top + Z.of_nat 0)%Z with top by lia.
    + right. apply elem_of_arange. lia.
  - intros d [Hd|Hd%elem_of_arange]%elem_of_app; [|lia].
    specialize (Hmax _ Hd). lia.
Qed.

(** The identifiers assigned after the maximum [top], when the new range
    stays within [int64]. *)
Lemma assigned_in_range (top : Z) (X : list doc) :
  int64 top → (top + 1 + Z.of_nat (length X) < 2 ^ 63)%Z →
  assigned top X None = arange (top + 1) (top + 1 + Z.of_nat (length X)).
Proof.
  unfold int64. intros Htop Hfit. cbn.
  rewrite (wrap64_int64 (top + 1)) by (unfold int64; lia).
  by rewrite wrap64_int64 by (unfold int64; lia).
Qed.

Lemma np_amax_int64 (ids : list Z) (top : Z) :
  Forall int64 ids → np_amax ids = Ok top → int64 top.
Proof.
  intros Hint [Hin _]%np_amax_Ok. rewrite Forall_forall in Hint. auto.
Qed.

(** X7. On the index of a non-empty collection with [int64] identifiers,
    two [partial_fit] calls of non-empty batches without identifiers, one
    after the other, leave the same object as a single [partial_fit] of
    the two batches concatenated, and all three calls return, as long as
    the new identifiers and the number of documents stay below [2^63]. *)
Theorem partial_fit_twice (X2 X3 : list doc) self v tv docs ids :
  indexes self v tv docs → docs ≠ [] → X2 ≠ [] → X3 ≠ [] →
  _y self = Some ids → Forall int64 ids →
  (∀ top, np_amax ids = Ok top →
          (top + 1 + Z.of_nat (length X2 + length X3) < 2 ^ 63)%Z) →
  (Z.of_nat (length docs + length X2 + length X3) < 2 ^ 63)%Z →
  (partial_fit X2 None self).2 = Ok () ∧
  partial_fit X3 None (partial_fit X2 None self).1 = partial_fit (X2 ++ X3) None self ∧
  (partial_fit (X2 ++ X3) None self).2 = Ok ().
Proof.
  intros Hidx Hne Hne2 Hne3 Hy Hint Hfit Hrows.
  pose proof Hidx as (ids' & Hcv & Htv & Hinv & HX & Hy' & Hn & Hlen).
  assert (ids' = ids) as -> by congruence.
  destruct (indexes_amax _ _ _ _ _ Hidx Hne Hy) as [top Htop].
  specialize (Hfit top Htop). pose proof (np_amax_int64 ids top Hint Htop) as Htop64.
  assert (X2 ++ X3 ≠ []) as Hne23 by (by destruct X2).
  rewrite (partial_fit_Ok CV TV X2 None self v tv _ ids top _ _ eq_refl Hne2 Hcv Htv Hinv
             eq_refl)
    by (try done; unfold n_rows; cbn; rewrite length_fmap; lia).
  rewrite (partial_fit_Ok CV TV (X2 ++ X3) None self v tv _ ids top _ _ eq_refl Hne23
             Hcv Htv Hinv eq_refl)
    by (try done; unfold n_rows; cbn; rewrite length_fmap, length_app; lia).
  cbn [fst snd]. split; [done|]. split; [|done].
  unfold appended at 1 2. cbn [_match_fn _fit_X].
  rewrite !assigned_in_range by (try done; rewrite ?length_app; lia).
  erewrite (partial_fit_Ok CV TV X3 None);
    [|done|done|reflexivity|reflexivity|reflexivity|reflexivity| |reflexivity
     |by apply np_amax_append|reflexivity|reflexivity|reflexivity|].
  2,3: unfold n_rows; cbn; rewrite length_app, !length_fmap; lia.
  unfold appended. cbn [_match_fn _fit_X n_cols rows]. f_equal.
  rewrite assigned_in_range by (unfold int64 in *; lia). f_equal.
  - by rewrite fmap_app, <-!app_assoc.
  - f_equal. rewrite <-app_assoc. f_equal.
    replace (top + Z.of_nat (length X2) + 1)%Z
      with (top + 1 + Z.of_nat (length X2))%Z by lia.
    by rewrite arange_app, length_app.
  - f_equal. rewrite length_app. lia.
  - by rewrite fmap_app, <-!app_assoc.
Qed.

(** X8. Identifiers assigned by [partial_fit] are fresh while they stay
    below [2^63]: when a [partial_fit] without identifiers returns on
    [int64] identifiers with maximum [top] and [top + len(X) < 2^63 - 1],
    the identifier array is the old one followed by one new identifier per
    document, the new identifiers are pairwise distinct and none of them
    was in use, so an array without duplicates stays without duplicates. *)
Theorem partial_fit_fresh_ids (X : list doc) self self' (ids : list Z) :
  partial_fit X None self = (self', Ok ()) → _y self = Some ids →
  Forall int64 ids →
  (∀ top, np_amax ids = Ok top → (top + 1 + Z.of_nat (length X) < 2 ^ 63)%Z) →
  ∃ new,
    _y self' = Some (ids ++ new) ∧ length new = length X ∧
    NoDup new ∧ (∀ d, d ∈ new → d ∉ ids) ∧
    (NoDup ids → NoDup (ids ++ new)).
Proof.
  intros (v & tv & inv & ids' & top & n & Xw & Hc & _ & _ & _ & _ & _ & Hy' & Htop & _ &
          _ & _ & ->)%partial_fit_Ok_inv Hy Hint Hfit.
  assert (ids' = ids) as -> by congruence.
  specialize (Hfit top Htop). pose proof (np_amax_int64 ids top Hint Htop) as Htop64.
  apply np_amax_Ok in Htop as [_ Hmax].
  eexists. split; [done|]. rewrite assigned_in_range by done.
  assert (∀ d, d ∈ arange (top + 1) (top + 1 + Z.of_nat (length X)) → d ∉ ids) as Hfresh.
  { intros d Hd%elem_of_arange Hin. specialize (Hmax _ Hin). lia. }
  split_and!.
  - rewrite length_arange. lia.
  - apply NoDup_arange.
  - done.
  - intros Hnd. apply NoDup_app. split_and!; [done| |apply NoDup_arange].
    intros d Hin Hd. by apply (Hfresh d).
Qed.

(** X9. [int64] identifiers handed to [partial_fit] are stored as they
    are: on the index of a non-empty collection with [int64] identifiers,
    for a non-empty batch, any [int64] identifiers of the right number are
    accepted and appended in order, whether or not they repeat identifiers
    already in use, and the array still holds [int64] values. *)
Theorem partial_fit_explicit_ids (X : list doc) (y ids : list Z) self v tv docs :
  indexes self v tv docs → docs ≠ [] → _y self = Some ids →
  Forall int64 ids → X ≠ [] → Forall int64 y →
  length y = length X →
  (Z.of_nat (length docs + length X) < 2 ^ 63)%Z →
  (partial_fit X (Some y) self).2 = Ok () ∧
  _y (partial_fit X (Some y) self).1 = Some (ids ++ y) ∧
  Forall int64 (ids ++ y).
Proof.
  intros Hidx Hne Hy Hint HX Hint' Hlen Hrows.
  pose proof Hidx as (ids' & Hcv & Htv & Hinv & HXw & Hy' & Hn & _).
  assert (ids' = ids) as -> by congruence.
  destruct (indexes_amax _ _ _ _ _ Hidx Hne Hy) as [top Htop].
  assert (_checkXy X (Some y) = Ok ()) as Hc.
  { cbn. by rewrite decide_False by lia. }
  rewrite (partial_fit_Ok CV TV X (Some y) self v tv _ ids top _ _ Hc HX Hcv Htv Hinv
             eq_refl)
    by (try done; unfold n_rows; cbn; by rewrite length_fmap).
  split_and!; [done|done|by apply Forall_app].
Qed.

(** Every call leaves the identifiers to the default numbering. *)
Definition default_ids (c : call (doc := doc)) : Prop :=
  match c with
  | Fit _ None | PartialFit _ None => True
  | _ => False
  end.

(** With the default numbering, a fitted object holds the identifiers
    [0 .. n_docs - 1] of a non-empty collection, one per row. *)
Definition numbered self : Prop :=
  ∀ inv ids n,
    _inv_X self = Some inv → _y self = Some ids → n_docs self = Some n →
    ids = arange 0 (Z.of_nat n) ∧ n_rows inv = n ∧ n ≠ 0.

Lemma np_amax_arange_0 (n : nat) :
  n ≠ 0 → np_amax (arange 0 (Z.of_nat n)) = Ok (Z.of_nat n - 1)%Z.
Proof.
  intros Hn. apply np_amax_max.
  - apply elem_of_arange. lia.
  - intros d Hd%elem_of_arange. lia.
Qed.

Lemma default_ids_exec c self :
  default_ids c → coherent CV TV self → numbered self → numbered (exec c self).1.
Proof.
  intros Hc (_ & _ & Hst) Hnum.
  destruct c as [X [y|]|X [y|]]; try done; cbn.
  - rewrite fit_unfold. cbn. destruct (decide (refused CV X)) as [|Hacc]; [done|].
    intros inv ids n. cbn. intros [= <-] [= <-] [= <-].
    unfold n_rows. cbn. rewrite length_fmap. unfold refused in Hacc.
    split_and!; [done..|tauto].
  - destruct Hst as [(_ & _ & _ & Hy & _)|
                     (v & tv & inv & Xw & ids & n & Hcv & Htv & Hinv & HX & Hy & Hn &
                      Hcols & Hcols')].
    { pose proof (partial_fit_grown CV TV X None self) as Hg. cbn in Hg.
      destruct Hg as (_ & _ & [Hy'|(? & ? & ? & _)] & _); [|congruence].
      intros ? ? ?. rewrite Hy', Hy. done. }
    destruct (Hnum inv ids n Hinv Hy Hn) as (-> & Hrows & Hn0).
    rewrite (partial_fit_unfold CV TV X None self v tv inv _ _ n Xw Hcv Htv Hinv Hcols
               Hy (np_amax_arange_0 n Hn0) Hn HX Hcols').
    cbn [_checkXy]. rewrite Hrows.
    destruct (decide (Z.of_nat (n + length X) < 2 ^ 63)%Z) as [Hfit|]; [|done].
    assert (numbered (stacked CV TV self X None v inv (arange 0 (Z.of_nat n))
                        (Z.of_nat n - 1) n)) as Hstacked.
    { intros inv' ids' n'. cbn [stacked _inv_X _y n_docs].
      intros [= <-] [= <-] [= <-].
      assert (int64 (Z.of_nat n - 1)) as Htop by (unfold int64; lia).
      pose proof (assigned_in_range (Z.of_nat n - 1) X Htop) as Hnew.
      unfold assigned in Hnew. rewrite Hnew by lia.
      replace (Z.of_nat n - 1 + 1)%Z with (Z.of_nat n) by lia.
      rewrite arange_0_app. unfold n_rows in *. cbn.
      rewrite length_app, length_fmap. split_and!; [done|lia|lia]. }
    destruct X as [|d X]; [done|].
    destruct (decide _); [|done]. cbn [fst].
    intros inv' ids' n'. specialize (Hstacked inv' ids' n'). apply Hstacked.
Qed.

(** X10. When no call ever supplies identifiers, the identifiers are the
    positions: after any history of [fit] and [partial_fit] calls without
    identifiers on a fresh object, the identifier array, if there is one,
    is [0, 1, ..., n_docs - 1]. *)
Theorem default_ids_are_positions (history : list call) (ids : list Z) (n : nat) :
  Forall default_ids history →
  let self := run (TfidfRetrieval CV TV) history in
  _y self = Some ids → n_docs self = Some n →
  ids = (λ i, Z.of_nat i) <$> seq 0 n.
Proof.
  intros Hdef self Hy Hn.
  assert (coherent CV TV self ∧ numbered self) as [Hcoh Hnum].
  { subst self. clear Hy Hn.
    assert (coherent CV TV (TfidfRetrieval CV TV) ∧ numbered (TfidfRetrieval CV TV))
      as Hinit by (split; [apply coherent_init|done]).
    revert Hinit. generalize (TfidfRetrieval CV TV).
    induction Hdef as [|c history Hc Hdef IH]; intros self0 [Hcoh Hnum]; [done|].
    change (run self0 (c :: history)) with (run (exec c self0).1 history).
    apply IH. split; [by apply exec_coherent|by apply default_ids_exec]. }
  destruct Hcoh as (_ & _ & [(_ & _ & _ & ? & _)|
                    (_ & _ & inv & _ & ids' & n' & _ & _ & Hinv & _ & Hy' & Hn' & _)]);
    [congruence|].
  assert (ids' = ids) as -> by congruence.
  assert (n' = n) as -> by congruence.
  destruct (Hnum inv ids n Hinv Hy Hn) as (-> & _ & _).
  replace (Z.of_nat n) with (0 + Z.of_nat n)%Z by lia.
  rewrite arange_consecutive. apply list_fmap_ext. intros i j _. lia.
Qed.

(** X11. [_matching] only reads: whatever it returns or raises, the object
    is left as it was. *)
Theorem matching_reads_only (query : doc) (return_indices : bool) self :
  (_matching query return_indices self).1 = self.
Proof.
  destruct self as [mf cv tvo invo fx yo no Xo]. method.
  destruct invo as [inv|]; cbn; [|done].
  destruct cv as [v|]; cbn; [|done].
  destruct mf as [match_fn|]; cbn.
  - destruct (match_fn inv _) as [ind|]; cbn; [|done].
    destruct return_indices; cbn; [done|].
    destruct fx as [docs|]; cbn; [|done].
    destruct (np_take docs ind); cbn; [|done].
    destruct yo as [ids|]; cbn; [|done].
    by destruct (np_take ids ind).
  - destruct fx as [docs|]; cbn; [|done]. by destruct yo.
Qed.
End Encoding.

(** ** Queries on an index *)

Lemma np_take_total {A} (y : list A) (idx : list nat) :
  (∀ i, i ∈ idx → i < length y) →
  ∃ ds, np_take y idx = Ok ds ∧ length ds = length idx.
Proof.
  intros Hidx. destruct (np_take y idx) as [ds|e] eqn:Hds.
  - exists ds. split; [done|]. by eapply comprehension_Ok_length.
  - exfalso. revert e Hds. unfold np_take.
    induction idx as [|i idx IH]; intros e; cbn; [done|].
    destruct (lookup_lt_is_Some_2 y i) as [d ->]; [apply Hidx; left|]. cbn.
    destruct (comprehension _ idx) eqn:Hrest; cbn; [done|].
    intros _. eapply IH; [|done]. intros j Hj. apply Hidx. by right.
Qed.

Lemma np_take_rows_total {A} (a : ndarray A) (idx : list nat) :
  (∀ i, i ∈ idx → i < n_rows a) →
  ∃ b, np_take_rows a idx = Ok b ∧ n_rows b = length idx.
Proof.
  intros Hidx. destruct (np_take_total (rows a) idx Hidx) as (rs & Hrs & Hlen).
  exists (NDArray (n_cols a) rs). split; [|done].
  unfold np_take_rows. unfold np_take in Hrs. by rewrite Hrs.
Qed.

Lemma np_take_rows_Ok_n_rows {A} (a b : ndarray A) (idx : list nat) :
  np_take_rows a idx = Ok b → n_rows b = length idx.
Proof.
  unfold np_take_rows. destruct (comprehension _ idx) as [rs|] eqn:Hrs; [|done].
  cbn. intros [= <-]. by eapply comprehension_Ok_length.
Qed.

(** What the nearest-neighbour search promises: asked for [n] neighbours
    among at least [n] rows, [n > 0], it returns [n] row indices. *)
Definition exact_search {weight}
    (kneighbors : ndarray weight → ndarray weight → Z → result (list nat)) : Prop :=
  ∀ Xm q n, (0 < n ≤ Z.of_nat (n_rows Xm))%Z →
    ∃ nn_ind, kneighbors Xm q n = Ok nn_ind ∧
              length nn_ind = Z.to_nat n ∧ ∀ i, i ∈ nn_ind → i < n_rows Xm.

Arguments nn_fit_X {weight} _.
Arguments nn_query {weight} _.
Arguments nn_n_neighbors {weight} _.

Section QueryMore.
Context {doc weight : Type}.
Variable CV : Vectorizer doc bool.
Variable TV : Vectorizer doc weight.
Variable kneighbors : ndarray weight → ndarray weight → Z → result (list nat).
Implicit Types self : store CV TV.

Ltac method :=
  unfold query, _matching, on, pure, call_kneighbors,
    mbind, M_bind, Q_bind, mret, M_ret, Q_ret, lift, attr,
    cv_transform, tfidf_transform;
  cbn -[TermMatch].

(** X12. Before any [fit], [_matching] raises [AttributeError] for
    [_inv_X] with either value of [return_indices], and so does [query],
    without calling the nearest-neighbour search. *)
Theorem query_before_fit (text : doc) (return_indices : bool) (k : Z) self :
  _inv_X self = None →
  (_matching text return_indices self).2 = Raise (AttributeError "_inv_X") ∧
  query kneighbors self text k = ([], Raise (AttributeError "_inv_X")).
Proof.
  destruct self as [mf cv tvo invo fx yo no Xo]. cbn. intros ->. by method.
Qed.

(** The documents of [docs] that share a term with [text], by position. *)
Definition matching_positions (v : vocabulary CV) (docs : list doc) (text : doc)
    : list nat :=
  overlapping_rows (v_transform CV v docs) (v_transform CV v [text]).

Lemma elem_of_matching_positions v docs text i :
  i ∈ matching_positions v docs text ↔
  ∃ d, docs !! i = Some d ∧ overlaps (v_row CV v d) (v_row CV v text) = true.
Proof.
  unfold matching_positions, overlapping_rows.
  rewrite list_elem_of_filter, elem_of_seq. cbn.
  rewrite list_lookup_fmap. unfold n_rows. cbn. rewrite length_fmap. split.
  - intros [Hov _]. destruct (docs !! i) as [d|]; [|done]. eauto.
  - intros (d & Hd & Hov). rewrite Hd. split; [done|].
    apply lookup_lt_Some in Hd. lia.
Qed.

Lemma matching_indexes self v tv docs (text : doc) :
  consistent CV → indexes CV TV self v tv docs → _match_fn self = Some TermMatch →
  (_matching text true self).2 = Ok (Indices (matching_positions v docs text)).
Proof.
  intros HCV (ids & Hcv & Htv & Hinv & HX & Hy & Hn & Hlen) Hmf.
  destruct self as [mf cv tvo invo fx yo no Xo]. cbn in *. simplify_eq. method.
  rewrite TermMatch_overlapping_rows; [done|..|done|done].
  - unfold well_shaped. cbn. apply Forall_fmap, Forall_forall. intros d _. apply HCV.
  - unfold well_shaped. cbn. apply Forall_singleton, HCV.
Qed.

(** X13. On the index of [docs] built with [TermMatch], with a count
    vectorizer whose rows have the width of its vocabulary, [_matching]
    with [return_indices=True] returns without raising, in increasing
    order and without repetition, exactly the positions of the documents
    whose boolean row shares a non-zero column with the boolean row of the
    query text. *)
Theorem matching_selects_sharing_documents self v tv docs (text : doc) :
  consistent CV → indexes CV TV self v tv docs → _match_fn self = Some TermMatch →
  ∃ ind,
    (_matching text true self).2 = Ok (Indices ind) ∧
    StronglySorted (<) ind ∧
    ∀ i, i ∈ ind ↔
         ∃ d j, docs !! i = Some d ∧
                v_row CV v d !! j = Some true ∧ v_row CV v text !! j = Some true.
Proof.
  intros HCV Hidx Hmf. exists (matching_positions v docs text). split_and!.
  - by apply matching_indexes with tv.
  - apply StronglySorted_filter_seq.
  - intros i. rewrite elem_of_matching_positions. split.
    + intros (d & Hd & (j & x & y & Hx & Hy & Hnx & Hny)%overlaps_spec).
      unfold is_nonzero, bool_nonzero in *. subst. eauto.
    + intros (d & j & Hd & Hx & Hy). exists d. split; [done|].
      apply overlaps_spec. by exists j, true, true.
Qed.

Lemma query_no_match self (text : doc) (k : Z) Xw ids :
  _X self = Some Xw → _y self = Some ids → (0 ≤ k)%Z →
  (_matching text true self).2 = Ok (Indices []) →
  query kneighbors self text k = ([], Ok []).
Proof.
  destruct self as [mf cv tvo invo fx yo no Xo]. cbn. intros -> -> Hk. method.
  destruct invo as [inv|]; cbn; [|done].
  destruct cv as [v|]; cbn; [|done].
  destruct mf as [match_fn|]; cbn.
  2:{ destruct fx; by cbn. }
  destruct (match_fn inv _) as [ind|]; cbn; [|done].
  intros [= ->]. cbn. by rewrite decide_True by lia.
Qed.

(** X14. A query none of whose terms is in the vocabulary finds nothing: on
    the index of [docs], when the boolean row of the text has no non-zero
    entry, [query] with [k ≥ 0] returns the empty sequence, without raising
    and without a nearest-neighbour search. *)
Theorem query_out_of_vocabulary self v tv docs (text : doc) (k : Z) :
  consistent CV → indexes CV TV self v tv docs → _match_fn self = Some TermMatch →
  (0 ≤ k)%Z →
  (∀ j, v_row CV v text !! j ≠ Some true) →
  query kneighbors self text k = ([], Ok []).
Proof.
  intros HCV Hidx Hmf Hk Hoov.
  pose proof Hidx as (ids & _ & _ & _ & HX & Hy & _).
  apply (query_no_match self text k _ _ HX Hy Hk).
  rewrite (matching_indexes self v tv docs text HCV Hidx Hmf). do 2 f_equal.
  apply elem_of_nil_inv. intros i (d & _ & Hov)%elem_of_matching_positions.
  apply overlaps_spec in Hov as (j & x & y & _ & Hy' & _ & Hny).
  unfold is_nonzero, bool_nonzero in Hny. subst y. by apply (Hoov j).
Qed.

(** X15. With a nearest-neighbour search that keeps its promise, [query]
    with [k ≥ 0] on an index built with [TermMatch] never raises, and it
    returns exactly [min(n_match, k)] identifiers, where [n_match] is the
    number of positions the matching step returns. *)
Theorem query_returns_min self v tv docs (text : doc) (k : Z) :
  consistent CV → exact_search kneighbors →
  indexes CV TV self v tv docs → _match_fn self = Some TermMatch →
  (0 ≤ k)%Z →
  ∃ ind labels,
    (_matching text true self).2 = Ok (Indices ind) ∧
    (query kneighbors self text k).2 = Ok labels ∧
    Z.of_nat (length labels) = (Z.of_nat (length ind) `min` k)%Z.
Proof.
  intros HCV Hnn Hidx Hmf Hk.
  pose proof (matching_indexes self v tv docs text HCV Hidx Hmf) as Hmatch.
  set (ind := matching_positions v docs text) in *.
  assert (∀ i, i ∈ ind → i < length docs) as Hbound.
  { intros i (d & Hd & _)%elem_of_matching_positions. by eapply lookup_lt_Some. }
  destruct Hidx as (ids & Hcv & Htv & Hinv & HX & Hy & Hn & Hlen).
  destruct (np_take_rows_total (v_transform TV tv docs) ind) as (Xm & HXm & HrXm).
  { intros i Hi. unfold n_rows. cbn. rewrite length_fmap. auto. }
  destruct (np_take_total ids ind) as (matched & Hmatched & Hlm).
  { intros i Hi. rewrite Hlen. auto. }
  exists ind. revert Hmatch. clearbody ind.
  remember (v_transform TV tv docs) as Xw eqn:EXw.
  remember (v_transform CV v docs) as inv eqn:Einv. clear EXw Einv.
  destruct self as [mf cv tvo invo fx yo no Xo]. cbn in *. simplify_eq. method.
  destruct (TermMatch _ _) as [ind'|]; cbn; [|done]. intros [= ->].
  rewrite HXm. cbn. rewrite Hmatched. cbn.
  destruct (decide (Z.of_nat (length ind) `min` k = 0)%Z) as [Hz|Hnz]; cbn.
  { exists []. split_and!; try done; cbn; lia. }
  destruct (Hnn Xm (v_transform TV tv [text]) (Z.of_nat (length ind) `min` k)%Z)
    as (nn_ind & -> & Hlnn & Hrange); [lia|]. cbn.
  destruct (np_take_total matched nn_ind) as (labels & -> & Hll).
  { intros i Hi. specialize (Hrange i Hi). lia. }
  cbn. exists labels. split_and!; try done. lia.
Qed.

(** X16. Whatever the object and whatever [k], [query] calls the
    nearest-neighbour search at most once; when it does, the matrix it
    hands over has one row per matched position, and the number of
    neighbours it asks for is [min(n_rows, k)] and is not zero. For
    [k ≥ 0] the request is therefore positive and never exceeds the number
    of rows. *)
Theorem query_search_request self (text : doc) (k : Z) :
  (query kneighbors self text k).1 = [] ∨
  ∃ c ind,
    (query kneighbors self text k).1 = [c] ∧
    (_matching text true self).2 = Ok (Indices ind) ∧
    n_rows (nn_fit_X c) = length ind ∧
    nn_n_neighbors c = (Z.of_nat (n_rows (nn_fit_X c)) `min` k)%Z ∧
    nn_n_neighbors c ≠ 0%Z ∧
    ((0 ≤ k)%Z → (0 < nn_n_neighbors c ≤ Z.of_nat (n_rows (nn_fit_X c)))%Z).
Proof.
  destruct self as [mf cv tvo invo fx yo no Xo]. method.
  destruct invo as [inv|]; cbn; [|by left].
  destruct cv as [v|]; cbn; [|by left].
  destruct mf as [match_fn|]; cbn.
  2:{ destruct fx; cbn; [|by left]. destruct yo; by left. }
  destruct (match_fn inv _) as [ind|]; cbn; [|by left].
  destruct Xo as [Xw|]; cbn; [|by left].
  destruct (np_take_rows Xw ind) as [Xm|] eqn:HXm; cbn; [|by left].
  destruct yo as [ids|]; cbn; [|by left].
  destruct (np_take ids ind) as [matched|]; cbn; [|by left].
  destruct (decide (Z.of_nat (length ind) `min` k = 0)%Z) as [Hz|Hnz]; cbn; [by left|].
  destruct tvo as [tv|]; cbn; [|by left].
  apply np_take_rows_Ok_n_rows in HXm. right.
  exists (NNCall Xm (v_transform TV tv [text]) (Z.of_nat (length ind) `min` k)%Z), ind.
  cbn. rewrite HXm. split_and!; try done; [|lia].
  destruct (kneighbors Xm _ _) as [nn_ind|]; cbn; [|done].
  by destruct (np_take matched nn_ind).
Qed.
End QueryMore.

(** ** The judgment join, shape by shape *)

Lemma py_index_nonneg {A} (l : list A) (i : Z) :
  (0 ≤ i)%Z →
  py_index l i = match l !! Z.to_nat i with Some x => Ok x | None => Raise IndexError end.
Proof.
  intros Hi. unfold py_index. cbv zeta.
  rewrite (decide_False (P := (i < 0)%Z)) by lia.
  by rewrite (decide_True (P := (0 ≤ i)%Z)) by lia.
Qed.

Lemma py_index_negative {A} (l : list A) (i : Z) :
  (- Z.of_nat (length l) ≤ i < 0)%Z →
  py_index l i = match l !! Z.to_nat (Z.of_nat (length l) + i) with
                 | Some x => Ok x
                 | None => Raise IndexError
                 end.
Proof.
  intros Hi. unfold py_index. cbv zeta.
  rewrite (decide_True (P := (i < 0)%Z)) by lia.
  rewrite (decide_True (P := (0 ≤ i + Z.of_nat (length l))%Z)) by lia.
  by replace (i + Z.of_nat (length l))%Z with (Z.of_nat (length l) + i)%Z by lia.
Qed.

(** X17. With a pair-keyed dict the join never raises: each returned
    identifier gets the grade stored for [(qid, docid)], or 0 when the pair
    is not a key. *)
Theorem relevance_pair_keyed (m : gmap (Z * Z) Z) (qid : Z) (docids : list Z) :
  ∃ r,
    relevance (FlatDict m) qid docids = Ok r ∧ length r = length docids ∧
    ∀ p docid, docids !! p = Some docid →
      r !! p = Some (match m !! (qid, docid) with Some g => g | None => 0%Z end).
Proof.
  eexists. split; [apply relevance_flat|]. split; [by rewrite length_fmap|].
  intros p docid Hp. rewrite list_lookup_fmap, Hp. cbn.
  by destruct (m !! (qid, docid)).
Qed.

(** X18. A dict of dicts is read through its [get] method with a pair as
    key, which is never one of its keys: every returned identifier gets
    relevance 0, whatever the dict holds, and nothing is raised. *)
Theorem relevance_dict_of_dicts (m : gmap Z (gmap Z Z)) (qid : Z) (docids : list Z) :
  relevance (DictOfDicts m) qid docids = Ok ((λ _, 0%Z) <$> docids).
Proof.
  unfold relevance. by rewrite (comprehension_total _ (λ _, 0%Z)).
Qed.

Lemma relevance_no_get (Y : judgments) (qid : Z) (docids : list Z) :
  (∀ docid, Y_get Y (qid, docid) 0%Z = Raise (AttributeError "get")) →
  relevance Y qid docids = comprehension (λ docid, Y_getitem2 Y qid docid) docids.
Proof.
  intros Hget. unfold relevance. destruct docids as [|docid docids]; [done|].
  cbn. by rewrite Hget.
Qed.

(** X19. With a list of dicts and a query id that is a position of the
    list, the join returns the stored grades when every returned identifier
    is a key of the dict at that position, and raises [KeyError] as soon as
    one is not; a query id past the end of the list raises [IndexError]
    when there is something to look up. *)
Theorem relevance_list_of_dicts (l : list (gmap Z Z)) (qid : Z) (docids : list Z) :
  (0 ≤ qid)%Z →
  (∀ row, l !! Z.to_nat qid = Some row →
     ((∀ docid, docid ∈ docids → is_Some (row !! docid)) →
      relevance (ListOfDicts l) qid docids
      = Ok ((λ docid, default 0%Z (row !! docid)) <$> docids)) ∧
     ((∃ docid, docid ∈ docids ∧ row !! docid = None) →
      relevance (ListOfDicts l) qid docids = Raise KeyError)) ∧
  (l !! Z.to_nat qid = None → docids ≠ [] →
   relevance (ListOfDicts l) qid docids = Raise IndexError).
Proof.
  intros Hqid.
  assert (∀ row, l !! Z.to_nat qid = Some row → py_index l qid = Ok row) as Hrow.
  { intros row Hrow. by rewrite py_index_nonneg, Hrow by done. }
  split.
  - intros row Hl. rewrite relevance_no_get by done. split.
    + intros Hall. apply comprehension_total. intros docid Hd. cbn.
      rewrite (Hrow row Hl). cbn. by destruct (Hall docid Hd) as [g ->].
    + intros Hmiss. apply comprehension_raise.
      * intros docid _. cbn. rewrite (Hrow row Hl). cbn.
        destruct (row !! docid); eauto.
      * destruct Hmiss as (docid & Hd & Hnone). exists docid. split; [done|].
        cbn. rewrite (Hrow row Hl). cbn. by rewrite Hnone.
  - intros Hl Hne. rewrite relevance_no_get by done.
    destruct docids as [|docid docids]; [done|]. cbn.
    by rewrite py_index_nonneg, Hl by done.
Qed.

(** X20. In a dense array a negative identifier counts from the end of the
    row, as any Python index does: for a query id that is a row position
    and a single returned identifier [-len ≤ docid < 0], the join returns
    the entry at [len + docid] instead of raising or counting 0. *)
Theorem relevance_dense_negative (a : list (list Z)) (qid docid : Z) (row : list Z) :
  (0 ≤ qid)%Z → a !! Z.to_nat qid = Some row →
  (- Z.of_nat (length row) ≤ docid < 0)%Z →
  ∃ g, row !! Z.to_nat (Z.of_nat (length row) + docid) = Some g ∧
       relevance (DenseArray a) qid [docid] = Ok [g].
Proof.
  intros Hqid Hrow Hd.
  destruct (lookup_lt_is_Some_2 row (Z.to_nat (Z.of_nat (length row) + docid)))
    as [g Hg]; [lia|].
  exists g. split; [done|]. rewrite relevance_no_get by done. cbn.
  rewrite py_index_nonneg, Hrow by done. cbn.
  by rewrite py_index_negative, Hg by done.
Qed.

Section EvaluateMore.
Context {doc weight : Type}.
Variable CV : Vectorizer doc bool.
Variable TV : Vectorizer doc weight.
Variable kneighbors : ndarray weight → ndarray weight → Z → result (list nat).
Variable rm : RankMetrics.
Implicit Types self : store CV TV.

Lemma query_log_short self (text : doc) (k : Z) :
  length (query kneighbors self text k).1 ≤ 1.
Proof.
  destruct self as [mf cv tvo invo fx yo no Xo].
  unfold query, _matching, on, pure, call_kneighbors,
    mbind, M_bind, Q_bind, mret, M_ret, Q_ret, lift, attr,
    cv_transform, tfidf_transform. cbn.
  destruct invo as [inv|]; cbn; [|lia].
  destruct cv as [v|]; cbn; [|lia].
  destruct mf as [match_fn|]; cbn.
  2:{ destruct fx; cbn; [|lia]. destruct yo; cbn; lia. }
  destruct (match_fn inv _) as [ind|]; cbn; [|lia].
  destruct Xo as [Xw|]; cbn; [|lia].
  destruct (np_take_rows Xw ind) as [Xm|]; cbn; [|lia].
  destruct yo as [ids|]; cbn; [|lia].
  destruct (np_take ids ind) as [matched|]; cbn; [|lia].
  destruct (decide _); cbn; [lia|].
  destruct tvo as [tv|]; cbn; [|lia].
  destruct (kneighbors Xm _ _) as [nn_ind|]; cbn; [|lia].
  destruct (np_take matched nn_ind); cbn; lia.
Qed.

(** X21. When the query loop of [evaluate] completes, it has collected one
    relevance row per [(qid, text)] pair, in order: the row is the join of
    the judgments with what [query] returned for that text. Over the whole
    loop the nearest-neighbour search is called at most once per pair. *)
Theorem evaluate_rs_rows self (X : list (Z * doc)) Y (k : Z) log rs :
  evaluate_rs kneighbors self X Y k = (log, Ok rs) →
  length rs = length X ∧ length log ≤ length X ∧
  Forall2 (λ qt r, ∃ labels,
             (query kneighbors self qt.2 k).2 = Ok labels ∧
             relevance Y qt.1 labels = Ok r) X rs.
Proof.
  revert log rs. induction X as [|[qid text] X IH]; intros log rs.
  { cbn. intros [= <- <-]. by split_and!. }
  cbn [evaluate_rs].
  unfold mbind, Q_bind, pure, mret, Q_ret.
  pose proof (query_log_short self text k) as Hshort.
  destruct (query kneighbors self text k) as [log1 [labels|]] eqn:Hq;
    [|by intros [=]].
  destruct (relevance Y qid labels) as [r|] eqn:Hr; [|by intros [=]].
  destruct (evaluate_rs kneighbors self X Y k) as [log2 [rs'|]] eqn:Hrest;
    [|by intros [=]].
  intros [= <- <-]. destruct (IH _ _ eq_refl) as (Hlen & Hlog & Hrows).
  cbn [fst] in Hshort. split_and!.
  - cbn [length]. lia.
  - rewrite ?app_nil_r, ?length_app. cbn [length app]. rewrite ?length_app. lia.
  - constructor; [|done]. exists labels. cbn [fst snd]. by rewrite Hq.
Qed.

(** X22. When [evaluate] returns, each of the three metric names that was
    requested maps to that metric computed on the rows collected by the
    query loop, [average_ndcg_at_k] with the same [k] as the queries, and
    each one that was not requested is absent. *)
Theorem evaluate_values self (X : list (Z * doc)) Y (k : Z) (metrics : list string)
    log values :
  evaluate kneighbors rm self X Y k metrics = (log, Ok values) →
  ∃ rs,
    evaluate_rs kneighbors self X Y k = (log, Ok rs) ∧
    values !! "average_ndcg_at_k" =
      (if decide ("average_ndcg_at_k" ∈ metrics)
       then Some (average_ndcg_at_k rm rs k) else None) ∧
    values !! "mean_reciprocal_rank" =
      (if decide ("mean_reciprocal_rank" ∈ metrics)
       then Some (mean_reciprocal_rank rm rs) else None) ∧
    values !! "mean_average_precision" =
      (if decide ("mean_average_precision" ∈ metrics)
       then Some (mean_average_precision rm rs) else None).
Proof.
  unfold evaluate, mbind, Q_bind, mret, Q_ret.
  destruct (evaluate_rs kneighbors self X Y k) as [log' [rs|]]; [|done].
  intros [= <- <-]. exists rs. rewrite app_nil_r. split; [done|].
  repeat case_decide; by simplify_map_eq.
Qed.
End EvaluateMore.

(** ** RetriEvalMixin.score

    [score] joins the judgments with [Y[qid, docid]] and falls back to
    [Y[qid][docid]] on a [TypeError]. It takes the results of all queries
    from one call [self.query(X, k)] of the batch query the mixin assumes;
    that method is a Section variable. *)

(** What the join in [score] can raise: the [TypeError] it catches, or
    something else. *)
Inductive raised : Type :=
| TypeError
| Other (e : exn).

Definition attempt (A : Type) : Type := raised + A.

Definition lift_result {A} (r : result A) : attempt A :=
  match r with
  | Ok a => inr a
  | Raise e => inl (Other e)
  end.

Fixpoint comprehension_attempt {A B} (f : A → attempt B) (l : list A)
    : attempt (list B) :=
  match l with
  | [] => inr []
  | x :: l' =>
      match f x with
      | inl e => inl e
      | inr y =>
          match comprehension_attempt f l' with
          | inl e => inl e
          | inr ys => inr (y :: ys)
          end
      end
  end.

(** [Y[qid, docid]]: a list cannot be indexed by a pair; a dict of dicts
    has no pair among its keys; a dense array is indexed on both axes. *)
Definition Y_getitem_pair (Y : judgments) (qid docid : Z) : attempt Z :=
  match Y with
  | FlatDict m =>
      match m !! (qid, docid) with Some g => inr g | None => inl (Other KeyError) end
  | DictOfDicts _ => inl (Other KeyError)
  | ListOfDicts _ => inl TypeError
  | DenseArray a => lift_result (row ← py_index a qid; py_index row docid)
  end.

(** The [try] / [except TypeError] of [score]. *)
Definition score_relevance (Y : judgments) (qid : Z) (docids : list Z)
    : attempt (list Z) :=
  match comprehension_attempt (λ docid, Y_getitem_pair Y qid docid) docids with
  | inl TypeError =>
      lift_result (comprehension (λ docid, Y_getitem2 Y qid docid) docids)
  | r => r
  end.

(** The [for qid, result in enumerate(...)] loop, from position [qid]. *)
Fixpoint score_rs (Y : judgments) (qid : nat) (results : list (list Z))
    : attempt (list (list Z)) :=
  match results with
  | [] => inr []
  | docids :: results' =>
      match score_relevance Y (Z.of_nat qid) docids with
      | inl e => inl e
      | inr r =>
          match score_rs Y (S qid) results' with
          | inl e => inl e
          | inr rs => inr (r :: rs)
          end
      end
  end.

Section Score.
Context {doc : Type}.
(** [self.query(X, k)] on a batch of queries: one result list per query. *)
Variable batch_query : list doc → Z → result (list (list Z)).
Variable rm : RankMetrics.

Definition RetriEvalMixin_score (X : list doc) (Y : judgments) (k : Z)
    (metrics : list string) : attempt (gmap string (score rm)) :=
  match lift_result (batch_query X k) with
  | inl e => inl e
  | inr results =>
      match score_rs Y 0 results with
      | inl e => inl e
      | inr rs =>
          let values : gmap string (score rm) := ∅ in
          let values :=
            if decide ("average_ndcg_at_k" ∈ metrics)
            then <["average_ndcg_at_k" := average_ndcg_at_k rm rs k]> values
            else values in
          let values :=
            if decide ("mean_reciprocal_rank" ∈ metrics)
            then <["mean_reciprocal_rank" := mean_reciprocal_rank rm rs]> values
            else values in
          let values :=
            if decide ("mean_average_precision" ∈ metrics)
            then <["mean_average_precision" := mean_average_precision rm rs]> values
            else values in
          inr values
      end
  end.
End Score.

Lemma comprehension_attempt_lift {A B} (f : A → result B) (l : list A) :
  comprehension_attempt (λ x, lift_result (f x)) l = lift_result (comprehension f l).
Proof.
  induction l as [|x l IH]; [done|]. cbn. destruct (f x) as [y|e]; [|done]. cbn.
  rewrite IH. by destruct (comprehension f l).
Qed.

Lemma comprehension_attempt_ext {A B} (f g : A → attempt B) (l : list A) :
  (∀ x, f x = g x) → comprehension_attempt f l = comprehension_attempt g l.
Proof. intros Hfg. induction l as [|x l IH]; [done|]. cbn. by rewrite Hfg, IH. Qed.

(** X23. On a list of dicts and on a dense array, [score] joins exactly as
    [evaluate] does: the same relevance row, or the same exception. *)
Theorem score_joins_like_evaluate (Y : judgments) (qid : Z) (docids : list Z) :
  (∃ l, Y = ListOfDicts l) ∨ (∃ a, Y = DenseArray a) →
  score_relevance Y qid docids = lift_result (relevance Y qid docids).
Proof.
  intros [[l ->]|[a ->]]; rewrite relevance_no_get by done; unfold score_relevance.
  - destruct docids as [|docid docids]; [done|]. by cbn.
  - change (λ docid, Y_getitem_pair (DenseArray a) qid docid)
      with (λ docid, lift_result (Y_getitem2 (DenseArray a) qid docid)).
    rewrite comprehension_attempt_lift. by destruct (comprehension _ docids).
Qed.

(** X24. [score] has no default grade. With a pair-keyed dict it returns
    the stored grades when every [(qid, docid)] pair is a key and raises
    [KeyError] when one is not, where [evaluate] counts 0; with a dict of
    dicts it raises [KeyError] whenever there is an identifier to look up. *)
Theorem score_has_no_default (qid : Z) (docids : list Z) :
  (∀ m : gmap (Z * Z) Z,
     ((∀ docid, docid ∈ docids → is_Some (m !! (qid, docid))) →
      score_relevance (FlatDict m) qid docids
      = inr ((λ docid, default 0%Z (m !! (qid, docid))) <$> docids)) ∧
     ((∃ docid, docid ∈ docids ∧ m !! (qid, docid) = None) →
      score_relevance (FlatDict m) qid docids = inl (Other KeyError) ∧
      ∃ r, relevance (FlatDict m) qid docids = Ok r)) ∧
  (∀ m : gmap Z (gmap Z Z),
     docids ≠ [] → score_relevance (DictOfDicts m) qid docids = inl (Other KeyError)).
Proof.
  split.
  - intros m.
    set (f := λ docid : Z, match m !! (qid, docid) with
                           | Some g => Ok g
                           | None => Raise KeyError
                           end).
    assert (score_relevance (FlatDict m) qid docids = lift_result (comprehension f docids))
      as ->.
    { unfold score_relevance.
      rewrite (comprehension_attempt_ext _ (λ docid, lift_result (f docid))).
      - rewrite comprehension_attempt_lift. by destruct (comprehension f docids).
      - intros docid. cbn. unfold f. by destruct (m !! (qid, docid)). }
    split.
    + intros Hall.
      rewrite (comprehension_total f (λ docid, default 0%Z (m !! (qid, docid)))); [done|].
      intros docid Hd. unfold f. by destruct (Hall docid Hd) as [g ->].
    + intros (docid & Hd & Hnone). split; [|rewrite relevance_flat; eauto].
      rewrite (comprehension_raise f KeyError); [done| |].
      * intros d _. unfold f. destruct (m !! (qid, d)); eauto.
      * exists docid. split; [done|]. unfold f. by rewrite Hnone.
  - intros m Hne. by destruct docids.
Qed.

Lemma score_rs_length (Y : judgments) (qid : nat) results rs :
  score_rs Y qid results = inr rs → length rs = length results.
Proof.
  revert qid rs. induction results as [|docids results IH]; intros qid rs; cbn.
  - by intros [= <-].
  - destruct (score_relevance Y _ docids); [done|].
    destruct (score_rs Y (S qid) results) eqn:Hrest; [done|].
    intros [= <-]. cbn. f_equal. by eapply IH.
Qed.

(** X25. When [score] returns, the batch query returned, the join produced
    one relevance row per result of the batch, and each of the three metric
    names that was requested maps to that metric computed on those rows,
    while each one not requested is absent. *)
Theorem score_values {doc : Type} (batch_query : list doc → Z → result (list (list Z)))
    (rm : RankMetrics) (X : list doc) (Y : judgments) (k : Z) (metrics : list string)
    (values : gmap string (score rm)) :
  RetriEvalMixin_score batch_query rm X Y k metrics = inr values →
  ∃ results rs,
    batch_query X k = Ok results ∧ score_rs Y 0 results = inr rs ∧
    length rs = length results ∧
    values !! "average_ndcg_at_k" =
      (if decide ("average_ndcg_at_k" ∈ metrics)
       then Some (average_ndcg_at_k rm rs k) else None) ∧
    values !! "mean_reciprocal_rank" =
      (if decide ("mean_reciprocal_rank" ∈ metrics)
       then Some (mean_reciprocal_rank rm rs) else None) ∧
    values !! "mean_average_precision" =
      (if decide ("mean_average_precision" ∈ metrics)
       then Some (mean_average_precision rm rs) else None).
Proof.
  unfold RetriEvalMixin_score.
  destruct (batch_query X k) as [results|]; [|done]. cbn.
  destruct (score_rs Y 0 results) as [|rs] eqn:Hrs; [done|].
  intros [= <-]. exists results, rs. split_and!; try done.
  - by eapply score_rs_length.
  - repeat case_decide; by simplify_map_eq.
  - repeat case_decide; by simplify_map_eq.
  - repeat case_decide; by simplify_map_eq.
Qed.

(** ** The further properties on the executable instance *)

Lemma toy_exact_search : exact_search Toy.kneighbors.
Proof.
  intros Xm q n Hn. unfold Toy.kneighbors.
  rewrite decide_False by lia. rewrite decide_False by lia.
  rewrite decide_False by lia. eexists. split; [done|]. split.
  - rewrite length_take, length_fmap, merge_sort_Permutation, length_imap.
    unfold n_rows in Hn. lia.
  - intros i [p [Hp _]]%elem_of_take.
    apply list_lookup_fmap_Some in Hp as ([i' r] & -> & Hp). cbn.
    apply list_elem_of_lookup_2 in Hp. rewrite merge_sort_Permutation in Hp.
    apply elem_of_lookup_imap in Hp as (j & r' & [= -> ->] & Hj).
    by eapply lookup_lt_Some.
Qed.

Lemma toy_fitted_indexes :
  indexes Toy.CV Toy.TV Toy.fitted (v_fit Toy.CV Toy.docs) (v_fit Toy.TV Toy.docs) Toy.docs.
Proof. exists [0; 1; 2; 3]%Z. split_and!; by vm_compute. Qed.

Lemma toy_fitted_int64 : Forall int64 [0; 1; 2; 3]%Z.
Proof. repeat constructor; unfold int64; lia. Qed.

Lemma toy_fitted_amax (top : Z) : np_amax [0; 1; 2; 3]%Z = Ok top → top = 3%Z.
Proof. by intros [= <-]. Qed.

Lemma toy_docs_nonempty : Toy.docs ≠ [].
Proof. done. Qed.

Definition toy_default_history : list (call (doc := Toy.doc)) :=
  [Fit Toy.docs None; PartialFit toy_batch None].



Lemma partial_fit_before_fit_witness :
  (_inv_X (TfidfRetrieval Toy.CV Toy.TV) = None ∧
   _checkXy toy_batch (@None (list Z)) = Ok ()) ∧
  partial_fit toy_batch None (TfidfRetrieval Toy.CV Toy.TV)
  = (TfidfRetrieval Toy.CV Toy.TV, Raise (AttributeError "_inv_X")).
Proof.
  split; [done|].
  by apply (partial_fit_before_fit Toy.CV Toy.TV toy_batch None
              (TfidfRetrieval Toy.CV Toy.TV)).
Defined.

Lemma partial_fit_twice_witness :
  (indexes Toy.CV Toy.TV Toy.fitted (v_fit Toy.CV Toy.docs) (v_fit Toy.TV Toy.docs)
     Toy.docs ∧ Toy.docs ≠ [] ∧ toy_batch ≠ [] ∧ [["lazy"; "fox"]] ≠ @nil Toy.doc ∧
   _y Toy.fitted = Some [0; 1; 2; 3]%Z ∧ Forall int64 [0; 1; 2; 3]%Z ∧
   (∀ top, np_amax [0; 1; 2; 3]%Z = Ok top →
           (top + 1 + Z.of_nat (length toy_batch + length [["lazy"; "fox"]]) < 2 ^ 63)%Z) ∧
   (Z.of_nat (length Toy.docs + length toy_batch + length [["lazy"; "fox"]])
    < 2 ^ 63)%Z) ∧
  (partial_fit toy_batch None Toy.fitted).2 = Ok () ∧
  partial_fit [["lazy"; "fox"]] None (partial_fit toy_batch None Toy.fitted).1
  = partial_fit (toy_batch ++ [["lazy"; "fox"]]) None Toy.fitted ∧
  (partial_fit (toy_batch ++ [["lazy"; "fox"]]) None Toy.fitted).2 = Ok ().
Proof.
  assert (∀ top, np_amax [0; 1; 2; 3]%Z = Ok top →
                 (top + 1 + Z.of_nat (length toy_batch + length [["lazy"; "fox"]])
                  < 2 ^ 63)%Z) as Hfit
    by (intros top ->%toy_fitted_amax; cbn; lia).
  split.
  { split_and!; [apply toy_fitted_indexes|done|done|done|by vm_compute
                 |apply toy_fitted_int64|done|cbn; lia]. }
  apply (partial_fit_twice Toy.CV Toy.TV toy_batch [["lazy"; "fox"]] Toy.fitted
           _ _ Toy.docs [0; 1; 2; 3]%Z toy_fitted_indexes toy_docs_nonempty);
    [done|done|by vm_compute|apply toy_fitted_int64|done|cbn; lia].
Defined.

Lemma partial_fit_fresh_ids_witness :
  (partial_fit toy_batch None Toy.fitted = (Toy.extended, Ok ()) ∧
   _y Toy.fitted = Some [0; 1; 2; 3]%Z ∧ Forall int64 [0; 1; 2; 3]%Z ∧
   (∀ top, np_amax [0; 1; 2; 3]%Z = Ok top →
           (top + 1 + Z.of_nat (length toy_batch) < 2 ^ 63)%Z)) ∧
  ∃ new,
    _y Toy.extended = Some ([0; 1; 2; 3]%Z ++ new) ∧ length new = length toy_batch ∧
    NoDup new ∧ (∀ d, d ∈ new → d ∉ [0; 1; 2; 3]%Z) ∧
    (NoDup [0; 1; 2; 3]%Z → NoDup ([0; 1; 2; 3]%Z ++ new)).
Proof.
  assert (∀ top, np_amax [0; 1; 2; 3]%Z = Ok top →
                 (top + 1 + Z.of_nat (length toy_batch) < 2 ^ 63)%Z) as Hfit
    by (intros top ->%toy_fitted_amax; cbn; lia).
  split; [split_and!; [by vm_compute|by vm_compute|apply toy_fitted_int64|done]|].
  apply (partial_fit_fresh_ids Toy.CV Toy.TV toy_batch Toy.fitted Toy.extended
           [0; 1; 2; 3]%Z); [by vm_compute|by vm_compute|apply toy_fitted_int64|done].
Defined.

Lemma partial_fit_explicit_ids_witness :
  (indexes Toy.CV Toy.TV Toy.fitted (v_fit Toy.CV Toy.docs) (v_fit Toy.TV Toy.docs)
     Toy.docs ∧ Toy.docs ≠ [] ∧ _y Toy.fitted = Some [0; 1; 2; 3]%Z ∧
   Forall int64 [0; 1; 2; 3]%Z ∧ toy_batch ≠ [] ∧ Forall int64 [2%Z] ∧
   length [2%Z] = length toy_batch ∧
   (Z.of_nat (length Toy.docs + length toy_batch) < 2 ^ 63)%Z) ∧
  (partial_fit toy_batch (Some [2%Z]) Toy.fitted).2 = Ok () ∧
  _y (partial_fit toy_batch (Some [2%Z]) Toy.fitted).1 = Some ([0; 1; 2; 3]%Z ++ [2%Z]) ∧
  Forall int64 ([0; 1; 2; 3]%Z ++ [2%Z]).
Proof.
  assert (Forall int64 [2%Z]) as Hint by (repeat constructor; unfold int64; lia).
  split.
  { split_and!; [apply toy_fitted_indexes|done|by vm_compute|apply toy_fitted_int64
                 |done|done|done|cbn; lia]. }
  apply (partial_fit_explicit_ids Toy.CV Toy.TV toy_batch [2%Z] [0; 1; 2; 3]%Z
           Toy.fitted _ _ Toy.docs toy_fitted_indexes toy_docs_nonempty);
    [by vm_compute|apply toy_fitted_int64|done|done|done|cbn; lia].
Defined.

Lemma default_ids_are_positions_witness :
  let self := run (TfidfRetrieval Toy.CV Toy.TV) toy_default_history in
  (Forall (default_ids (doc := Toy.doc)) toy_default_history ∧
   _y self = Some [0; 1; 2; 3; 4]%Z ∧ n_docs self = Some 5) ∧
  [0; 1; 2; 3; 4]%Z = (λ i, Z.of_nat i) <$> seq 0 5.
Proof.
  assert (Forall (default_ids (doc := Toy.doc)) toy_default_history) as Hdef
    by (by repeat constructor).
  split; [by split_and!|].
  by apply (default_ids_are_positions Toy.CV Toy.TV toy_default_history
              [0; 1; 2; 3; 4]%Z 5 Hdef).
Defined.

Lemma query_before_fit_witness :
  _inv_X (TfidfRetrieval Toy.CV Toy.TV) = None ∧
  (_matching ["fox"] false (TfidfRetrieval Toy.CV Toy.TV)).2
  = Raise (AttributeError "_inv_X") ∧
  query Toy.kneighbors (TfidfRetrieval Toy.CV Toy.TV) ["fox"] 3
  = ([], Raise (AttributeError "_inv_X")).
Proof.
  split; [done|].
  by apply (query_before_fit Toy.CV Toy.TV Toy.kneighbors ["fox"] false 3
              (TfidfRetrieval Toy.CV Toy.TV)).
Defined.

Lemma matching_selects_sharing_documents_witness :
  (consistent Toy.CV ∧
   indexes Toy.CV Toy.TV Toy.fitted (v_fit Toy.CV Toy.docs) (v_fit Toy.TV Toy.docs)
     Toy.docs ∧
   _match_fn Toy.fitted = Some TermMatch) ∧
  ∃ ind,
    (_matching ["brown"; "dog"] true Toy.fitted).2 = Ok (Indices ind) ∧
    StronglySorted (<) ind ∧
    ∀ i, i ∈ ind ↔
         ∃ d j, Toy.docs !! i = Some d ∧
                v_row Toy.CV (v_fit Toy.CV Toy.docs) d !! j = Some true ∧
                v_row Toy.CV (v_fit Toy.CV Toy.docs) ["brown"; "dog"] !! j = Some true.
Proof.
  split; [split_and!; [apply toy_cv_consistent|apply toy_fitted_indexes|done]|].
  apply (matching_selects_sharing_documents Toy.CV Toy.TV Toy.fitted _ _ Toy.docs
           ["brown"; "dog"] toy_cv_consistent toy_fitted_indexes eq_refl).
Defined.

Lemma toy_out_of_vocabulary :
  ∀ j, v_row Toy.CV (v_fit Toy.CV Toy.docs) ["new"; "doc"] !! j ≠ Some true.
Proof.
  intros j Hj.
  assert (v_row Toy.CV (v_fit Toy.CV Toy.docs) ["new"; "doc"] = replicate 8 false) as Hrow
    by (by vm_compute).
  rewrite Hrow in Hj. by apply lookup_replicate in Hj as [? _].
Qed.

Lemma query_out_of_vocabulary_witness :
  (consistent Toy.CV ∧
   indexes Toy.CV Toy.TV Toy.fitted (v_fit Toy.CV Toy.docs) (v_fit Toy.TV Toy.docs)
     Toy.docs ∧
   _match_fn Toy.fitted = Some TermMatch ∧ (0 ≤ 5)%Z ∧
   ∀ j, v_row Toy.CV (v_fit Toy.CV Toy.docs) ["new"; "doc"] !! j ≠ Some true) ∧
  query Toy.kneighbors Toy.fitted ["new"; "doc"] 5 = ([], Ok []).
Proof.
  split.
  - split_and!; [apply toy_cv_consistent|apply toy_fitted_indexes|done|lia
                 |apply toy_out_of_vocabulary].
  - apply (query_out_of_vocabulary Toy.CV Toy.TV Toy.kneighbors Toy.fitted _ _ Toy.docs
             ["new"; "doc"] 5 toy_cv_consistent toy_fitted_indexes eq_refl);
      [lia|apply toy_out_of_vocabulary].
Defined.

Lemma query_returns_min_witness :
  (consistent Toy.CV ∧ exact_search Toy.kneighbors ∧
   indexes Toy.CV Toy.TV Toy.fitted (v_fit Toy.CV Toy.docs) (v_fit Toy.TV Toy.docs)
     Toy.docs ∧
   _match_fn Toy.fitted = Some TermMatch ∧ (0 ≤ 1)%Z) ∧
  ∃ ind labels,
    (_matching ["the"; "fox"] true Toy.fitted).2 = Ok (Indices ind) ∧
    (query Toy.kneighbors Toy.fitted ["the"; "fox"] 1).2 = Ok labels ∧
    Z.of_nat (length labels) = (Z.of_nat (length ind) `min` 1)%Z.
Proof.
  split.
  - split_and!; [apply toy_cv_consistent|apply toy_exact_search
                 |apply toy_fitted_indexes|done|lia].
  - apply (query_returns_min Toy.CV Toy.TV Toy.kneighbors Toy.fitted _ _ Toy.docs
             ["the"; "fox"] 1 toy_cv_consistent toy_exact_search toy_fitted_indexes
             eq_refl).
    lia.
Defined.

Lemma query_search_request_witness :
  (query Toy.kneighbors Toy.fitted ["the"; "fox"] 2).1 = [] ∨
  ∃ c ind,
    (query Toy.kneighbors Toy.fitted ["the"; "fox"] 2).1 = [c] ∧
    (_matching ["the"; "fox"] true Toy.fitted).2 = Ok (Indices ind) ∧
    n_rows (nn_fit_X c) = length ind ∧
    nn_n_neighbors c = (Z.of_nat (n_rows (nn_fit_X c)) `min` 2)%Z ∧
    nn_n_neighbors c ≠ 0%Z ∧
    ((0 ≤ 2)%Z → (0 < nn_n_neighbors c ≤ Z.of_nat (n_rows (nn_fit_X c)))%Z).
Proof.
  apply (query_search_request Toy.CV Toy.TV Toy.kneighbors Toy.fitted ["the"; "fox"] 2).
Defined.

Definition toy_nested : list (gmap Z Z) :=
  [ {[ 0%Z := 0%Z; 1%Z := 1%Z ]}; {[ 3%Z := 1%Z ]} ].

Lemma relevance_list_of_dicts_witness :
  (0 ≤ 0)%Z ∧
  (∀ row, toy_nested !! Z.to_nat 0 = Some row →
     ((∀ docid, docid ∈ [1; 0]%Z → is_Some (row !! docid)) →
      relevance (ListOfDicts toy_nested) 0 [1; 0]%Z
      = Ok ((λ docid, default 0%Z (row !! docid)) <$> [1; 0]%Z)) ∧
     ((∃ docid, docid ∈ [1; 0]%Z ∧ row !! docid = None) →
      relevance (ListOfDicts toy_nested) 0 [1; 0]%Z = Raise KeyError)) ∧
  (toy_nested !! Z.to_nat 0 = None → [1; 0]%Z ≠ [] →
   relevance (ListOfDicts toy_nested) 0 [1; 0]%Z = Raise IndexError).
Proof.
  split; [lia|].
  apply (relevance_list_of_dicts toy_nested 0 [1; 0]%Z). lia.
Defined.

Lemma relevance_dense_negative_witness :
  ((0 ≤ 0)%Z ∧ [[0; 2; 0; 0; 7]%Z] !! Z.to_nat 0 = Some [0; 2; 0; 0; 7]%Z ∧
   (- Z.of_nat (length [0; 2; 0; 0; 7]%Z) ≤ -1 < 0)%Z) ∧
  ∃ g, [0; 2; 0; 0; 7]%Z !! Z.to_nat (Z.of_nat (length [0; 2; 0; 0; 7]%Z) + -1) = Some g ∧
       relevance (DenseArray [[0; 2; 0; 0; 7]%Z]) 0 [(-1)%Z] = Ok [g].
Proof.
  split; [split_and!; first [done|cbn; lia]|].
  apply (relevance_dense_negative [[0; 2; 0; 0; 7]%Z] 0 (-1) [0; 2; 0; 0; 7]%Z);
    [lia|done|cbn; lia].
Defined.

Lemma evaluate_rs_rows_witness :
  let log := (evaluate_rs Toy.kneighbors Toy.fitted toy_queries toy_flat 20).1 in
  evaluate_rs Toy.kneighbors Toy.fitted toy_queries toy_flat 20
  = (log, Ok [[1]; [1]]%Z) ∧
  length [[1]; [1]]%Z = length toy_queries ∧ length log ≤ length toy_queries ∧
  Forall2 (λ qt r, ∃ labels,
             (query Toy.kneighbors Toy.fitted qt.2 20).2 = Ok labels ∧
             relevance toy_flat qt.1 labels = Ok r) toy_queries [[1]; [1]]%Z.
Proof.
  split; [by vm_compute|].
  apply (evaluate_rs_rows Toy.CV Toy.TV Toy.kneighbors Toy.fitted toy_queries toy_flat 20).
  by vm_compute.
Defined.

Lemma evaluate_values_witness :
  let metrics := ["mean_reciprocal_rank"] in
  let out := evaluate Toy.kneighbors Toy.rm Toy.fitted toy_queries toy_flat 20 metrics in
  ∃ values,
    out = (out.1, Ok values) ∧
    ∃ rs,
      evaluate_rs Toy.kneighbors Toy.fitted toy_queries toy_flat 20 = (out.1, Ok rs) ∧
      values !! "average_ndcg_at_k" =
        (if decide ("average_ndcg_at_k" ∈ metrics)
         then Some (average_ndcg_at_k Toy.rm rs 20) else None) ∧
      values !! "mean_reciprocal_rank" =
        (if decide ("mean_reciprocal_rank" ∈ metrics)
         then Some (mean_reciprocal_rank Toy.rm rs) else None) ∧
      values !! "mean_average_precision" =
        (if decide ("mean_average_precision" ∈ metrics)
         then Some (mean_average_precision Toy.rm rs) else None).
Proof.
  intros metrics out.
  assert (∃ values, out = (out.1, Ok values)) as [values Hout].
  { subst out. unfold evaluate. cbn [mbind].
    destruct (evaluate_rs Toy.kneighbors Toy.fitted toy_queries toy_flat 20)
      as [log [rs|e]] eqn:Hrs; [by eexists|].
    by vm_compute in Hrs. }
  exists values. split; [done|].
  by apply (evaluate_values Toy.CV Toy.TV Toy.kneighbors Toy.rm Toy.fitted toy_queries
              toy_flat 20 metrics out.1 values).
Defined.

Lemma score_joins_like_evaluate_witness :
  ((∃ l, ListOfDicts toy_nested = ListOfDicts l) ∨
   (∃ a, ListOfDicts toy_nested = DenseArray a)) ∧
  score_relevance (ListOfDicts toy_nested) 1 [3; 0]%Z
  = lift_result (relevance (ListOfDicts toy_nested) 1 [3; 0]%Z).
Proof.
  assert ((∃ l, ListOfDicts toy_nested = ListOfDicts l) ∨
          (∃ a, ListOfDicts toy_nested = DenseArray a)) as Hshape by (left; eauto).
  split; [done|].
  by apply (score_joins_like_evaluate (ListOfDicts toy_nested) 1 [3; 0]%Z).
Defined.

Definition toy_pairs : gmap (Z * Z) Z := {[ (0%Z, 1%Z) := 1%Z ]}.

Lemma score_has_no_default_witness :
  (∃ docid, docid ∈ [1; 3]%Z ∧ toy_pairs !! (0%Z, docid) = None) ∧
  score_relevance (FlatDict toy_pairs) 0 [1; 3]%Z = inl (Other KeyError) ∧
  ∃ r, relevance (FlatDict toy_pairs) 0 [1; 3]%Z = Ok r.
Proof.
  assert (∃ docid, docid ∈ [1; 3]%Z ∧ toy_pairs !! (0%Z, docid) = None) as Hmiss.
  { exists 3%Z. split; [right; left|done]. }
  split; [done|].
  by apply (score_has_no_default 0 [1; 3]%Z).
Defined.

(** A batch query over the toy index: one [query] per text. *)
Definition toy_batch_query (X : list Toy.doc) (k : Z) : result (list (list Z)) :=
  comprehension (λ text, (query Toy.kneighbors Toy.fitted text k).2) X.

Lemma score_values_witness :
  let metrics := ["mean_average_precision"] in
  let out := RetriEvalMixin_score toy_batch_query Toy.rm [["fox"]; ["dog"]]
               (ListOfDicts toy_nested) 20 metrics in
  ∃ values,
    out = inr values ∧
    ∃ results rs,
      toy_batch_query [["fox"]; ["dog"]] 20 = Ok results ∧
      score_rs (ListOfDicts toy_nested) 0 results = inr rs ∧
      length rs = length results ∧
      values !! "average_ndcg_at_k" =
        (if decide ("average_ndcg_at_k" ∈ metrics)
         then Some (average_ndcg_at_k Toy.rm rs 20) else None) ∧
      values !! "mean_reciprocal_rank" =
        (if decide ("mean_reciprocal_rank" ∈ metrics)
         then Some (mean_reciprocal_rank Toy.rm rs) else None) ∧
      values !! "mean_average_precision" =
        (if decide ("mean_average_precision" ∈ metrics)
         then Some (mean_average_precision Toy.rm rs) else None).
Proof.
  intros metrics out.
  destruct out as [e|values] eqn:Hout; [by vm_compute in Hout|].
  exists values. split; [done|].
  by apply (score_values toy_batch_query Toy.rm [["fox"]; ["dog"]]
              (ListOfDicts toy_nested) 20 metrics values).
Defined.
